(** * A shallow embedding of [main.py], a single-threaded HTTP/1.1 server

    The development follows the source top-down:

    - [PyStr]   Python text and byte strings, with the library operations the
                server calls on them ([str.split], [str.lstrip], [str(int)],
                [bytes.decode], [str.encode]);
    - [PyDict]  the insertion-ordered [dict] used for header mappings;
    - [Http]    the pure functions [generate_response], [get_content_type]
                and the header loop of [parse_request];
    - [Server]  the effectful functions [parse_request], [serve_static_file],
                [handle_client] and the accept loop, written in a small
                monad threading the observable events and Python exceptions.

    Standard output is recorded as events and is taken to accept every text
    it is given, so that [print] never raises; nothing below is claimed for
    a standard output that cannot encode what is printed. *)

From Stdlib Require Import ZArith NArith Arith List String Ascii DecimalString Bool Lia.
From Stdlib.Strings Require Import Byte.
Import ListNotations.

(* ================================================================== *)
(** ** Python strings *)
(* ================================================================== *)

Module PyStr.

(** A Python [str] is a sequence of Unicode code points; a [bytes] object is
    a sequence of octets. *)
Definition codepoint := N.
Definition str := list codepoint.
Definition bytes := list byte.

(** Text literals of the source are written as Rocq strings and read one
    code point per character (all literals of [main.py] are ASCII). *)
Definition lit (s : string) : str := map N_of_ascii (list_ascii_of_string s).

Definition CR : codepoint := 13%N.
Definition LF : codepoint := 10%N.
Definition CRLF : str := [CR; LF].

Definition str_eqb (a b : str) : bool :=
  if list_eq_dec N.eq_dec a b then true else false.

(** [strip_prefix p s] is [Some r] when [s = p ++ r]. *)
Fixpoint strip_prefix (p s : str) : option str :=
  match p, s with
  | [], _ => Some s
  | _ :: _, [] => None
  | a :: p', b :: s' => if N.eqb a b then strip_prefix p' s' else None
  end.

(** [str.partition]-like search: the text before and after the leftmost
    occurrence of [sep], or [None] when [sep] does not occur. *)
Fixpoint find_sep (sep s : str) : option (str * str) :=
  match strip_prefix sep s with
  | Some rest => Some ([], rest)
  | None =>
      match s with
      | [] => None
      | c :: s' =>
          match find_sep sep s' with
          | Some (before, rest) => Some (c :: before, rest)
          | None => None
          end
      end
  end.

Definition contains (sep s : str) : bool :=
  match find_sep sep s with Some _ => true | None => false end.

(** [s.split(sep)] for a non-empty [sep]: cut at every occurrence, scanning
    from the left.  The recursion is on a bound of the remaining length. *)
Fixpoint split_upto (fuel : nat) (sep s : str) : list str :=
  match find_sep sep s with
  | None => [s]
  | Some (before, rest) =>
      match fuel with
      | O => [s]
      | S fuel' => before :: split_upto fuel' sep rest
      end
  end.

Definition split (sep s : str) : list str := split_upto (List.length s) sep s.

(** [s.split(sep, 1)]: cut at the leftmost occurrence only. *)
Definition split1 (sep s : str) : list str :=
  match find_sep sep s with
  | None => [s]
  | Some (before, rest) => [before; rest]
  end.

(** [s.lstrip(chars)]: drop every leading character that belongs to [chars]. *)
Fixpoint lstrip (chars s : str) : str :=
  match s with
  | [] => []
  | c :: s' => if existsb (N.eqb c) chars then lstrip chars s' else s
  end.

(** [str(n)] for an [int]: decimal digits, with a leading minus sign. *)
Definition str_of_int (z : Z) : str := lit (NilZero.string_of_int (Z.to_int z)).
Definition str_of_len (n : nat) : str := str_of_int (Z.of_nat n).

(** *** Codecs *)

Definition octet (n : N) : byte :=
  match Byte.of_N (n mod 256) with Some b => b | None => x00 end.

(** [b.decode('latin-1')]: every octet is the code point of the same value. *)
Definition decode_latin1 (b : bytes) : str := map Byte.to_N b.

(** [s.encode('utf-8')], strict: surrogates (and values outside the Unicode
    range) raise [UnicodeEncodeError], modelled as [None]. *)
Definition encode_codepoint (c : codepoint) : option bytes :=
  if (c <? 0x80)%N then Some [octet c]
  else if (c <? 0x800)%N then
    Some [octet (N.lor 0xC0 (N.shiftr c 6)); octet (N.lor 0x80 (N.land c 0x3F))]
  else if (c <? 0x10000)%N then
    if ((0xD800 <=? c) && (c <=? 0xDFFF))%N then None
    else Some [octet (N.lor 0xE0 (N.shiftr c 12));
               octet (N.lor 0x80 (N.land (N.shiftr c 6) 0x3F));
               octet (N.lor 0x80 (N.land c 0x3F))]
  else if (c <? 0x110000)%N then
    Some [octet (N.lor 0xF0 (N.shiftr c 18));
          octet (N.lor 0x80 (N.land (N.shiftr c 12) 0x3F));
          octet (N.lor 0x80 (N.land (N.shiftr c 6) 0x3F));
          octet (N.lor 0x80 (N.land c 0x3F))]
  else None.

Fixpoint encode_utf8 (s : str) : option bytes :=
  match s with
  | [] => Some []
  | c :: s' =>
      match encode_codepoint c, encode_utf8 s' with
      | Some b, Some bs => Some (b ++ bs)
      | _, _ => None
      end
  end.

(** [b.decode('utf-8')], strict: shortest forms only, no surrogates, nothing
    above U+10FFFF; any other input raises [UnicodeDecodeError] ([None]). *)
Definition between (lo hi x : N) : bool := ((lo <=? x) && (x <=? hi))%N.
Definition continuation (b : byte) : bool := between 0x80 0xBF (Byte.to_N b).
Definition low6 (b : byte) : N := N.land (Byte.to_N b) 0x3F.

Fixpoint decode_utf8 (b : bytes) : option str :=
  match b with
  | [] => Some []
  | b0 :: r0 =>
      let n0 := Byte.to_N b0 in
      if (n0 <? 0x80)%N then option_map (cons n0) (decode_utf8 r0)
      else if between 0xC2 0xDF n0 then
        match r0 with
        | b1 :: r1 =>
            if continuation b1
            then option_map (cons (N.lor (N.shiftl (N.land n0 0x1F) 6) (low6 b1)))
                            (decode_utf8 r1)
            else None
        | _ => None
        end
      else if between 0xE0 0xEF n0 then
        match r0 with
        | b1 :: b2 :: r2 =>
            let lo := if (n0 =? 0xE0)%N then 0xA0%N else 0x80%N in
            let hi := if (n0 =? 0xED)%N then 0x9F%N else 0xBF%N in
            if between lo hi (Byte.to_N b1) && continuation b2
            then option_map
                   (cons (N.lor (N.shiftl (N.land n0 0x0F) 12)
                                (N.lor (N.shiftl (low6 b1) 6) (low6 b2))))
                   (decode_utf8 r2)
            else None
        | _ => None
        end
      else if between 0xF0 0xF4 n0 then
        match r0 with
        | b1 :: b2 :: b3 :: r3 =>
            let lo := if (n0 =? 0xF0)%N then 0x90%N else 0x80%N in
            let hi := if (n0 =? 0xF4)%N then 0x8F%N else 0xBF%N in
            if between lo hi (Byte.to_N b1) && continuation b2 && continuation b3
            then option_map
                   (cons (N.lor (N.shiftl (N.land n0 0x07) 18)
                                (N.lor (N.shiftl (low6 b1) 12)
                                       (N.lor (N.shiftl (low6 b2) 6) (low6 b3)))))
                   (decode_utf8 r3)
            else None
        | _ => None
        end
      else None
  end.

(** The octets of an ASCII literal. *)
Definition blit (s : string) : bytes := list_byte_of_string s.

End PyStr.
Import PyStr.

(* ================================================================== *)
(** ** Python dictionaries *)
(* ================================================================== *)

Module PyDict.

(** A [dict] from [str] to [str] keeps its entries in insertion order;
    assigning to a key that is present replaces the value where it stands. *)
Definition dict := list (str * str).

Definition empty : dict := [].

Fixpoint set (k v : str) (d : dict) : dict :=
  match d with
  | [] => [(k, v)]
  | (k', v') :: d' => if str_eqb k' k then (k', v) :: d' else (k', v') :: set k v d'
  end.

(** [d.items()] *)
Definition items (d : dict) : list (str * str) := d.

(** The keys of a dictionary are pairwise distinct. *)
Definition wf (d : dict) : Prop := NoDup (map fst d).

End PyDict.

(* ================================================================== *)
(** ** Exceptions *)
(* ================================================================== *)

(** The classes of [Exception] that the calls of [main.py] can raise.  All of
    them are caught by [except Exception]. *)
Inductive exn : Type :=
| ValueError
| IndexError
| UnicodeDecodeError
| UnicodeEncodeError
| FileNotFoundError
| IsADirectoryError
| PermissionError
| OSError
| ConnectionError.

Definition result (A : Type) : Type := (exn + A)%type.

(* ================================================================== *)
(** ** The pure functions of [main.py] *)
(* ================================================================== *)

Module Http.

Import PyDict.

(** [status_messages] of [generate_response], with the default of [.get]. *)
Definition status_messages : list (Z * str) :=
  [ (200%Z, lit "OK");
    (404%Z, lit "Not Found");
    (500%Z, lit "Internal Server Error") ].

Fixpoint get_status (table : list (Z * str)) (code : Z) (default : str) : str :=
  match table with
  | [] => default
  | (k, v) :: table' => if Z.eqb k code then v else get_status table' code default
  end.

(** The [for] loop of [generate_response], accumulating [header_lines]. *)
Definition header_line (entry : str * str) : str :=
  fst entry ++ lit ": " ++ snd entry ++ CRLF.

Definition header_lines (headers : dict) : str :=
  fold_left (fun acc entry => acc ++ header_line entry) (items headers) [].

(** The text assembled by [generate_response], before [.encode('utf-8')]. *)
Definition response_text (status_code : Z) (headers : dict) (body : str) : str :=
  let status_message := get_status status_messages status_code (lit "Unknown Status") in
  let response_line :=
    lit "HTTP/1.1 " ++ str_of_int status_code ++ lit " " ++ status_message ++ CRLF in
  response_line ++ header_lines headers ++ CRLF ++ body.

Definition generate_response (status_code : Z) (headers : dict) (body : str)
  : result bytes :=
  match encode_utf8 (response_text status_code headers body) with
  | Some b => inr b
  | None => inl UnicodeEncodeError
  end.

(** [get_content_type]; [guess_type p] stands for [mimetypes.guess_type(p)[0]],
    the extension table of the Python library, [None] when it knows no type.
    [x or y] takes [y] when [x] is [None] or the empty string. *)
Definition get_content_type (guess_type : str -> option str) (file_path : str) : str :=
  match guess_type file_path with
  | Some (c :: content_type) => c :: content_type
  | Some [] | None => lit "application/octet-stream"
  end.

(** The header loop of [parse_request]: stop at the first empty line; every
    other line must unpack into a name and a value around the leftmost
    [": "]. *)
Fixpoint parse_headers (lines : list str) (headers : dict) : result dict :=
  match lines with
  | [] => inr headers
  | line :: lines' =>
      match line with
      | [] => inr headers
      | _ :: _ =>
          match split1 (lit ": ") line with
          | [header_name; header_value] =>
              parse_headers lines' (set header_name header_value headers)
          | _ => inl ValueError
          end
      end
  end.

(** [method, path, http_version = request_line.split(' ')] *)
Definition unpack3 (parts : list str) : result (str * str * str) :=
  match parts with
  | [method; path; http_version] => inr (method, path, http_version)
  | _ => inl ValueError
  end.

End Http.

(* ================================================================== *)
(** ** The library behind [get_content_type] *)
(* ================================================================== *)

(** [mimetypes.guess_type(url)[0]] of the Python library.  The path is first
    taken for a URL: a leading scheme is cut off, and a [data:] URL is given
    the media type it names.  Any other path is split into a root and an
    extension, for which the suffix, encoding and type tables of the library
    are consulted; those tables are the parameter [by_suffix]. *)
Module Mimetypes.

(** The pattern of [urllib.parse._splittype], matched at the start: one or
    more characters other than ["/"] and [":"], then [":"], then anything.
    The scan gives the text before the first [":"], provided no ["/"] comes
    before it, and the text after it. *)
Fixpoint scheme_scan (url : str) : option (str * str) :=
  match url with
  | [] => None
  | c :: url' =>
      if N.eqb c 58 then Some ([], url')
      else if N.eqb c 47 then None
      else match scheme_scan url' with
           | Some (scheme, data) => Some (c :: scheme, data)
           | None => None
           end
  end.

(** [scheme.lower() == 'data']: the four letters in either case; no other
    character is lowered to one of them. *)
Definition is_data (scheme : str) : bool :=
  match scheme with
  | [d; a; t; a'] =>
      (N.eqb d 100 || N.eqb d 68) && (N.eqb a 97 || N.eqb a 65)
      && (N.eqb t 116 || N.eqb t 84) && (N.eqb a' 97 || N.eqb a' 65)
  | _ => false
  end.

(** The text after [data:], when the path is a data URL. *)
Definition data_url (url : str) : option str :=
  match scheme_scan url with
  | Some (c :: scheme, data) => if is_data (c :: scheme) then Some data else None
  | _ => None
  end.

(** The path without its scheme, if it has one. *)
Definition local_part (url : str) : str :=
  match scheme_scan url with
  | Some (c :: scheme, data) => data
  | _ => url
  end.

(** The type of a data URL: the text before the first [";"] or [","] when it
    holds a ["/"] and no ["="], [text/plain] otherwise; none without [","]. *)
Definition data_url_type (data : str) : option str :=
  match find_sep (lit ",") data with
  | None => None
  | Some (head, _) =>
      let media :=
        match find_sep (lit ";") head with
        | Some (m, _) => m
        | None => head
        end in
      if contains (lit "=") media || negb (contains (lit "/") media)
      then Some (lit "text/plain")
      else Some media
  end.

(** [posixpath.splitext]: the extension runs from the last dot to the end,
    when that dot lies in the last component of the path and is preceded
    there by a character other than a dot. *)
Definition splitext (p : str) : str * str :=
  match find_sep [46%N] (rev p) with
  | None => (p, [])
  | Some (ext_rev, root_rev) =>
      if contains [47%N] ext_rev then (p, [])
      else
        let name_rev :=
          match find_sep [47%N] root_rev with
          | Some (n, _) => n
          | None => root_rev
          end in
        if forallb (N.eqb 46) name_rev then (p, [])
        else (rev root_rev, 46%N :: rev ext_rev)
  end.

Definition guess_type (by_suffix : str -> str -> option str) (url : str)
  : option str :=
  match data_url url with
  | Some data => data_url_type data
  | None =>
      let (root, ext) := splitext (local_part url) in
      by_suffix root ext
  end.

End Mimetypes.

(* ================================================================== *)
(** ** The environment of a run *)
(* ================================================================== *)

(** What a path of the filesystem holds while a request is served. *)
Inductive node : Type :=
| Absent                    (* no such entry *)
| Regular (content : bytes) (* a file read in full by [open(path, 'rb')] *)
| Directory                 (* exists; opening it for reading raises *)
| Unreadable (e : exn)      (* exists; [open] or [read] raises [e] *)
| Uncheckable (e : exn).    (* [os.stat] raises [e] (an [OSError]) on the path *)

(** The machine the server runs on. *)
Record host : Type := {
  guess_type : str -> option str;
  fs : str -> node
}.

(** One peer: what its connection delivers to [recv], and which of the
    [sendall] calls on it (counted from 0) fail. *)
Record client : Type := {
  incoming : result bytes;
  send_fault : nat -> option exn
}.

(** Lines written to standard output. *)
Inductive output : Type :=
| OutRequestLine (method path http_version : str)
| OutHeadersBanner
| OutHeader (header_name header_value : str)
| OutStaticError (e : exn)
| OutClientError (e : exn)
| OutServerError (e : exn)
| OutServerClosed.

(** What a run does to the outside world, in order. *)
Inductive event : Type :=
| Stdout (o : output)
| Recv (bufsize : nat)
| PathExists (path : str)
| OpenRead (path : str)
| SendAll (payload : bytes) (fault : option exn)
| CloseClient
| Accept (ok : bool)
| CloseServer.

(* ================================================================== *)
(** ** A monad for effects and exceptions *)
(* ================================================================== *)

Module Eff.

(** The state of one connection: the events so far and the number of
    [sendall] calls made on the client socket. *)
Record state : Type := {
  events : list event;
  nsent : nat
}.

Definition init : state := {| events := []; nsent := 0 |}.

(** A computation reads the host and the client, updates the state, and
    either returns or raises; the state survives a raise. *)
Definition M (A : Type) : Type := host -> client -> state -> result A * state.

Definition ret {A} (a : A) : M A := fun _ _ s => (inr a, s).

Definition bind {A B} (m : M A) (k : A -> M B) : M B :=
  fun h c s =>
    match m h c s with
    | (inr a, s') => k a h c s'
    | (inl e, s') => (inl e, s')
    end.

Definition raise {A} (e : exn) : M A := fun _ _ s => (inl e, s).

Definition lift {A} (r : result A) : M A := fun _ _ s => (r, s).

Definition emit (e : event) : M unit :=
  fun _ _ s => (inr tt, {| events := events s ++ [e]; nsent := nsent s |}).

(** [try: body / except Exception as e: handler e] *)
Definition try_except {A} (body : M A) (handler : exn -> M A) : M A :=
  fun h c s =>
    match body h c s with
    | (inl e, s') => handler e h c s'
    | r => r
    end.

(** [try: body / finally: final]; an exception of [final] replaces the
    outcome of [body]. *)
Definition try_finally {A} (body : M A) (final : M unit) : M A :=
  fun h c s =>
    match body h c s with
    | (r, s') =>
        match final h c s' with
        | (inr _, s'') => (r, s'')
        | (inl e, s'') => (inl e, s'')
        end
    end.

Fixpoint for_each {A} (l : list A) (body : A -> M unit) : M unit :=
  match l with
  | [] => ret tt
  | a :: l' => bind (body a) (fun _ => for_each l' body)
  end.

End Eff.

Declare Scope eff_scope.
Delimit Scope eff_scope with eff.
Notation "x <- m ;; k" := (Eff.bind m (fun x => k))
  (at level 61, m at next level, right associativity) : eff_scope.
Notation "m ;; k" := (Eff.bind m (fun _ => k))
  (at level 61, right associativity) : eff_scope.

(* ================================================================== *)
(** ** The effectful functions of [main.py] *)
(* ================================================================== *)

Module Server.

Import PyDict Http Eff.
Local Open Scope eff_scope.

(** *** Primitives *)

Definition print (o : output) : M unit := emit (Stdout o).

(** [client_socket.recv(bufsize)]: at most [bufsize] octets of what the peer
    delivers. *)
Definition recv (bufsize : nat) : M bytes :=
  emit (Recv bufsize) ;;
  fun _ c s =>
    match incoming c with
    | inr data => (inr (firstn bufsize data), s)
    | inl e => (inl e, s)
    end.

(** [client_socket.sendall(data)] *)
Definition sendall (data : bytes) : M unit :=
  fun _ c s =>
    let fault := send_fault c (nsent s) in
    let s' := {| events := events s ++ [SendAll data fault]; nsent := S (nsent s) |} in
    match fault with
    | None => (inr tt, s')
    | Some e => (inl e, s')
    end.

(** [client_socket.close()] *)
Definition close : M unit := emit CloseClient.

(** [os.path.exists(path)]: the library calls [os.stat] and answers [False]
    when that raises, so a check that fails reads as an absent path. *)
Definition path_exists (path : str) : M bool :=
  emit (PathExists path) ;;
  fun h _ s =>
    match fs h path with
    | Absent | Uncheckable _ => (inr false, s)
    | Regular _ | Directory | Unreadable _ => (inr true, s)
    end.

(** [with open(path, 'rb') as f: content = f.read()] *)
Definition open_read (path : str) : M bytes :=
  emit (OpenRead path) ;;
  fun h _ s =>
    match fs h path with
    | Regular content => (inr content, s)
    | Absent => (inl FileNotFoundError, s)
    | Directory => (inl IsADirectoryError, s)
    | Unreadable e | Uncheckable e => (inl e, s)
    end.

Definition content_type_of (file_path : str) : M str :=
  fun h _ s => (inr (get_content_type (guess_type h) file_path), s).

(** *** [parse_request] *)

Definition parse_request (request_data : str) : M (str * str * str * dict) :=
  let lines := split CRLF request_data in
  match lines with
  | [] => raise IndexError
  | request_line :: header_block =>
      parts <- lift (unpack3 (split (lit " ") request_line)) ;;
      let '(method, path, http_version) := parts in
      print (OutRequestLine method path http_version) ;;
      headers <- lift (parse_headers header_block empty) ;;
      print OutHeadersBanner ;;
      for_each (items headers) (fun entry => print (OutHeader (fst entry) (snd entry))) ;;
      ret (method, path, http_version, headers)
  end.

(** *** [serve_static_file] *)

Definition body_404 : str := lit "404 Not Found".
Definition body_500 : str := lit "500 Internal Server Error".

Definition serve_static_file (path : str) : M unit :=
  try_except
    (found <- path_exists path ;;
     response <-
       (if found : bool then
          content <- open_read path ;;
          content_type <- content_type_of path ;;
          let headers :=
            set (lit "Content-Length") (str_of_len (List.length content))
              (set (lit "Content-Type") content_type empty) in
          lift (generate_response 200 headers (decode_latin1 content))
        else
          lift (generate_response 404 empty body_404)) ;;
     sendall response)
    (fun e =>
       print (OutStaticError e) ;;
       response <- lift (generate_response 500 empty body_500) ;;
       sendall response).

(** *** [handle_client] *)

Definition greeting : str := lit "<html><body><h1>Hello, world!</h1></body></html>".

Definition handle_client : M unit :=
  try_finally
    (try_except
       (raw <- recv 1024 ;;
        request_data <-
          lift (match decode_utf8 raw with
                | Some text => inr text
                | None => inl UnicodeDecodeError
                end) ;;
        request <- parse_request request_data ;;
        let '(_, path, _, _) := request in
        if str_eqb path (lit "/") then
          let response_body := greeting in
          let headers :=
            set (lit "Content-Length") (str_of_len (List.length response_body))
              (set (lit "Content-Type") (lit "text/html") empty) in
          response <- lift (generate_response 200 headers response_body) ;;
          ret tt
        else
          serve_static_file (lstrip (lit "/") path))
       (fun e =>
          print (OutClientError e) ;;
          response <- lift (generate_response 500 empty body_500) ;;
          sendall response))
    close.

(** *** The accept loop of [__main__] *)

(** What one call of [server_socket.accept()] yields. *)
Inductive accepted : Type :=
| Connection (c : client)
| AcceptFails (e : exn).

(** How the [while True] loop is left: by an [Exception], or by the
    interruption of the process once the script of connections is used up. *)
Inductive stop : Type :=
| Raised (e : exn)
| Interrupted.

Fixpoint accept_loop (h : host) (script : list accepted) : list event * stop :=
  match script with
  | [] => ([], Interrupted)
  | AcceptFails e :: _ => ([Accept false], Raised e)
  | Connection c :: script' =>
      match handle_client h c init with
      | (inr _, s) =>
          let (evs, why) := accept_loop h script' in
          (Accept true :: events s ++ evs, why)
      | (inl e, s) => (Accept true :: events s, Raised e)
      end
  end.

(** [try: while True: ... / except Exception as e: print / finally: close, print] *)
Definition serve (h : host) (script : list accepted) : list event :=
  let (evs, why) := accept_loop h script in
  evs
  ++ match why with
     | Raised e => [Stdout (OutServerError e)]
     | Interrupted => []
     end
  ++ [CloseServer; Stdout OutServerClosed].

(** The events of handling one client, and how the handler ends. *)
Definition run_client (h : host) (c : client) : result unit * list event :=
  let (r, s) := handle_client h c init in (r, events s).

(** The payloads handed to [sendall], delivered or not. *)
Fixpoint sends (evs : list event) : list (bytes * option exn) :=
  match evs with
  | [] => []
  | SendAll payload fault :: evs' => (payload, fault) :: sends evs'
  | _ :: evs' => sends evs'
  end.

(** The payloads that reached the peer. *)
Fixpoint delivered (evs : list event) : list bytes :=
  match evs with
  | [] => []
  | SendAll payload None :: evs' => payload :: delivered evs'
  | _ :: evs' => delivered evs'
  end.

End Server.

Import PyDict Http Eff Server.

(* ================================================================== *)
(** ** Vocabulary of the statements *)
(* ================================================================== *)

(** A Rocq string whose characters are all below 128. *)
Definition ascii_only (s : string) : bool :=
  forallb (fun c => N.ltb (N_of_ascii c) 128) (list_ascii_of_string s).

Definition crlf : bytes := [x0d; x0a].

(** The reason phrases as the specification lists them. *)
Definition spec_reason (code : Z) : string :=
  if Z.eqb code 200 then "OK"
  else if Z.eqb code 404 then "Not Found"
  else if Z.eqb code 500 then "Internal Server Error"
  else "Unknown Status".

(** Decimal digits of a status code. *)
Definition decimal (code : Z) : string := NilZero.string_of_int (Z.to_int code).

(** A header mapping together with the UTF-8 octets of its names and values. *)
Definition encoded_as (headers : dict) (octets : list (bytes * bytes)) : Prop :=
  Forall2 (fun entry enc =>
             encode_utf8 (fst entry) = Some (fst enc)
             /\ encode_utf8 (snd entry) = Some (snd enc))
          headers octets.

(** A header line without its line terminator. *)
Definition bare_line (entry : str * str) : str := fst entry ++ lit ": " ++ snd entry.

(** Names and values that the wire format can carry unchanged: no name
    holds [": "], and neither names nor values hold ["\r\n"]. *)
Definition unambiguous (headers : dict) : Prop :=
  Forall (fun entry =>
            contains (lit ": ") (fst entry) = false
            /\ contains CRLF (fst entry) = false
            /\ contains CRLF (snd entry) = false)
         headers.

(** The two error responses, octet by octet: a status line, no header
    line, the blank line, the body. *)
Definition response_404 : bytes :=
  blit "HTTP/1.1 404 Not Found" ++ crlf ++ crlf ++ blit "404 Not Found".

Definition response_500 : bytes :=
  blit "HTTP/1.1 500 Internal Server Error" ++ crlf ++ crlf
  ++ blit "500 Internal Server Error".

(** The value [parse_request] returns or the exception it raises, and the
    lines it prints before doing so. *)
Definition parsed (request_data : str) : result (str * str * str * dict) :=
  match split CRLF request_data with
  | [] => inl IndexError
  | request_line :: header_block =>
      match unpack3 (split (lit " ") request_line) with
      | inl e => inl e
      | inr (method, path, http_version) =>
          match parse_headers header_block empty with
          | inl e => inl e
          | inr headers => inr (method, path, http_version, headers)
          end
      end
  end.

Definition parse_output (request_data : str) : list event :=
  match split CRLF request_data with
  | [] => []
  | request_line :: header_block =>
      match unpack3 (split (lit " ") request_line) with
      | inl _ => []
      | inr (method, path, http_version) =>
          Stdout (OutRequestLine method path http_version)
          :: match parse_headers header_block empty with
             | inl _ => []
             | inr headers =>
                 Stdout OutHeadersBanner
                 :: map (fun entry => Stdout (OutHeader (fst entry) (snd entry))) headers
             end
      end
  end.

(** The text [handle_client] hands to [parse_request]: one [recv] of at most
    1024 octets, decoded as UTF-8. *)
Definition request_text (c : client) : result str :=
  match incoming c with
  | inl e => inl e
  | inr data =>
      match decode_utf8 (firstn 1024 data) with
      | Some text => inr text
      | None => inl UnicodeDecodeError
      end
  end.

(** A state with further events and the same count of sends. *)
Definition after (s : state) (evs : list event) : state :=
  {| events := events s ++ evs; nsent := nsent s |}.

(** A [sendall] of [payload] in state [s]. *)
Definition sent (c : client) (s : state) (payload : bytes) : state :=
  {| events := events s ++ [SendAll payload (send_fault c (nsent s))];
     nsent := S (nsent s) |}.

(** Returning from a [sendall]: normally, or with the fault of the socket. *)
Definition outcome (fault : option exn) : result unit :=
  match fault with
  | None => inr tt
  | Some e => inl e
  end.

(** What [serve_static_file] does before its first [sendall]: the filesystem
    calls, and the response built or the exception raised. *)
Definition static_attempt (h : host) (path : str) : list event * result bytes :=
  match fs h path with
  | Absent | Uncheckable _ =>
      ([PathExists path], generate_response 404 empty body_404)
  | Regular content =>
      ([PathExists path; OpenRead path],
       generate_response 200
         (set (lit "Content-Length") (str_of_len (List.length content))
            (set (lit "Content-Type") (get_content_type (guess_type h) path) empty))
         (decode_latin1 content))
  | Directory => ([PathExists path; OpenRead path], inl IsADirectoryError)
  | Unreadable e => ([PathExists path; OpenRead path], inl e)
  end.

(** An [except] branch of the source: print, then send the 500 response. *)
Definition recover (c : client) (label : exn -> output) (e : exn) (s : state)
  : result unit * state :=
  (outcome (send_fault c (nsent s)),
   sent c (after s [Stdout (label e)]) response_500).

(** The [finally] clause of [handle_client]. *)
Definition closing (rs : result unit * state) : result unit * state :=
  (fst rs, after (snd rs) [CloseClient]).

(** The response [handle_client] builds for the path ["/"]. *)
Definition greeting_response : bytes :=
  blit "HTTP/1.1 200 OK" ++ crlf
  ++ blit "Content-Type: text/html" ++ crlf
  ++ blit "Content-Length: 48" ++ crlf
  ++ crlf
  ++ blit "<html><body><h1>Hello, world!</h1></body></html>".

(** Between the states [s] and [s'] the first [sendall] carries [payload],
    and when that call is not faulted no other [sendall] follows it. *)
Definition responds (c : client) (s s' : state) (payload : bytes) : Prop :=
  exists quiet more,
    events s' = events s ++ quiet ++ SendAll payload (send_fault c (nsent s)) :: more
    /\ sends quiet = []
    /\ (send_fault c (nsent s) = None -> sends more = []).

(** The number of times the client socket is closed. *)
Fixpoint closes (evs : list event) : nat :=
  match evs with
  | [] => 0
  | CloseClient :: evs' => S (closes evs')
  | _ :: evs' => closes evs'
  end.

(** The number of connections taken from the listening socket. *)
Fixpoint accepts (evs : list event) : nat :=
  match evs with
  | [] => 0
  | Accept true :: evs' => S (accepts evs')
  | _ :: evs' => accepts evs'
  end.

(** Removing one leading ["/"], as the specification words the routing. *)
Definition strip_one_slash (path : str) : str :=
  match path with
  | 47%N :: rest => rest
  | _ => path
  end.

(** *** Hosts and peers used in examples *)

(** A peer that delivers [data] and takes every [sendall]. *)
Definition peer (data : bytes) : client :=
  {| incoming := inr data; send_fault := fun _ => None |}.

(** A peer that delivers [data] and has gone away before any answer. *)
Definition lost_peer (data : bytes) : client :=
  {| incoming := inr data; send_fault := fun _ => Some ConnectionError |}.

(** A table of two extensions standing for [mimetypes]. *)
Definition toy_guess (path : str) : option str :=
  if str_eqb path (lit "notes.txt") then Some (lit "text/plain")
  else if str_eqb path (lit "index.html") then Some (lit "text/html")
  else None.


(** A host whose working directory is empty. *)
Definition empty_host : host :=
  {| guess_type := toy_guess; fs := fun _ => Absent |}.

(** A host whose working directory holds a single entry. *)
Definition host_with (name : str) (entry : node) : host :=
  {| guess_type := toy_guess;
     fs := fun path => if str_eqb path name then entry else Absent |}.

Definition get_line (target : string) : bytes :=
  blit "GET " ++ blit target ++ blit " HTTP/1.1" ++ crlf.

(** *** Vocabulary of the further properties *)

(** Assigning entries to a dictionary one after the other, as the header
    loop does with the lines it reads. *)
Definition assign_all (entries : list (str * str)) (d : dict) : dict :=
  fold_left (fun d entry => set (fst entry) (snd entry) d) entries d.

(** Code points that [str.encode('utf-8')] accepts: the Unicode range
    without the surrogates. *)
Definition encodable (c : codepoint) : bool :=
  ((c <? 0xD800) || ((0xDFFF <? c) && (c <? 0x110000)))%N.



(** The life of the server as seen from outside: waiting in [accept], busy
    with one client, or stopped with the listening socket closed. *)
Inductive phase : Type := Listening | Serving | Down.

(** A trace in which connections are accepted only while listening, every
    use of a client socket or of the filesystem falls between an [Accept]
    and the [CloseClient] that follows it, the listening socket is closed
    while no client is open, and nothing but printing happens after that. *)
Fixpoint orderly (ph : phase) (evs : list event) : bool :=
  match evs with
  | [] => match ph with Down => true | _ => false end
  | Stdout _ :: evs' => orderly ph evs'
  | Accept true :: evs' =>
      match ph with Listening => orderly Serving evs' | _ => false end
  | Accept false :: evs' =>
      match ph with Listening => orderly Listening evs' | _ => false end
  | CloseClient :: evs' =>
      match ph with Serving => orderly Listening evs' | _ => false end
  | CloseServer :: evs' =>
      match ph with Listening => orderly Down evs' | _ => false end
  | (Recv _ | PathExists _ | OpenRead _ | SendAll _ _) :: evs' =>
      match ph with Serving => orderly Serving evs' | _ => false end
  end.

(** Events of the handler other than the closing of the client socket. *)
Definition inner (e : event) : bool :=
  match e with
  | Stdout _ | Recv _ | PathExists _ | OpenRead _ | SendAll _ _ => true
  | CloseClient | Accept _ | CloseServer => false
  end.

(** A peer given by the octets it delivers and the faults of its socket. *)
Definition caller (data : bytes) (faults : nat -> option exn) : client :=
  {| incoming := inr data; send_fault := faults |}.

(** Octets that occur in no UTF-8 text: [0xC0], [0xC1] and [0xF5] to
    [0xFF]. *)
Definition stray (b : byte) : bool :=
  ((Byte.to_N b =? 0xC0) || (Byte.to_N b =? 0xC1) || (0xF5 <=? Byte.to_N b))%N.

(** *** Proof steps used more than once *)

(** Two spellings of one list of events. *)
Ltac same_events := cbn [app]; rewrite <- ?app_assoc; cbn [app]; reflexivity.

(** Linear arithmetic over [N] with division by constants. *)
Ltac nlia := zify; Z.to_euclidean_division_equations; lia.

(** Settling a comparison of the goal by arithmetic. *)
Ltac holds t :=
  replace t with true by (symmetry; first [apply N.leb_le | apply N.ltb_lt]; lia).
Ltac fails t :=
  replace t with false by (symmetry; first [apply N.leb_gt | apply N.ltb_ge]; lia).

(** Case analysis on every fault of the socket that the goal mentions. *)
Ltac faults c :=
  repeat (cbn [events nsent after];
          match goal with
          | |- context [ send_fault c ?n ] => destruct (send_fault c n)
          end);
  cbn [events nsent after app]; rewrite <- ?app_assoc; try reflexivity.

(* ================================================================== *)
(** * Facts about strings *)
(* ================================================================== *)

Section Searching.

Variable sep : str.

Lemma strip_prefix_sound (s r : str) :
  strip_prefix sep s = Some r -> s = sep ++ r.
Proof.
  revert s. induction sep as [|a p IH]; intros s H.
  - simpl in H. now inversion H.
  - destruct s as [|b s']; simpl in H; [discriminate|].
    destruct (N.eqb_spec a b) as [->|]; [|discriminate].
    simpl. f_equal. now apply IH.
Qed.

Lemma strip_prefix_app (r : str) : strip_prefix sep (sep ++ r) = Some r.
Proof.
  induction sep as [|a p IH]; simpl; [reflexivity|].
  now rewrite N.eqb_refl.
Qed.

Lemma find_sep_sound (s before rest : str) :
  find_sep sep s = Some (before, rest) -> s = before ++ sep ++ rest.
Proof.
  revert before rest. induction s as [|c s' IH]; intros before rest H.
  - simpl in H. destruct (strip_prefix sep []) eqn:E; [|discriminate].
    inversion H; subst. now apply strip_prefix_sound.
  - simpl in H. destruct (strip_prefix sep (c :: s')) eqn:E.
    + inversion H; subst. now apply strip_prefix_sound.
    + destruct (find_sep sep s') as [[b r]|] eqn:F; [|discriminate].
      inversion H; subst. simpl. f_equal. now apply IH.
Qed.

Lemma find_sep_shorter (s before rest : str) :
  sep <> [] -> find_sep sep s = Some (before, rest) ->
  List.length rest < List.length s.
Proof.
  intros Hne H. apply find_sep_sound in H. subst s.
  rewrite !length_app. destruct sep; [congruence|]. simpl. lia.
Qed.

Lemma find_sep_nil : sep <> [] -> find_sep sep [] = None.
Proof. destruct sep; [congruence|reflexivity]. Qed.

(** Enough fuel: any bound of the length gives the same cut. *)
Lemma split_upto_enough (n m : nat) (s : str) :
  sep <> [] -> List.length s <= n -> List.length s <= m ->
  split_upto n sep s = split_upto m sep s.
Proof.
  intros Hne. revert m s. induction n as [|n IH]; intros m s Hn Hm.
  - destruct s; [|simpl in Hn; lia].
    destruct m; cbn [split_upto]; now rewrite find_sep_nil.
  - destruct m as [|m].
    + destruct s; [|simpl in Hm; lia].
      cbn [split_upto]. now rewrite find_sep_nil.
    + cbn [split_upto]. destruct (find_sep sep s) as [[b r]|] eqn:F; [|reflexivity].
      f_equal. pose proof (find_sep_shorter _ _ _ Hne F). apply IH; lia.
Qed.

(** The defining equation of [str.split]. *)
Lemma split_eq (s : str) :
  sep <> [] ->
  split sep s =
    match find_sep sep s with
    | None => [s]
    | Some (before, rest) => before :: split sep rest
    end.
Proof.
  intros Hne. unfold split.
  destruct (find_sep sep s) as [[b r]|] eqn:F.
  - pose proof (find_sep_shorter _ _ _ Hne F) as Hlt.
    destruct (List.length s) as [|n] eqn:L; [inversion Hlt|].
    cbn [split_upto]. rewrite F. f_equal. apply split_upto_enough; [assumption|lia|lia].
  - destruct (List.length s); cbn [split_upto]; now rewrite F.
Qed.

Lemma split_not_nil (s : str) : split sep s <> [].
Proof.
  unfold split. destruct (List.length s); simpl;
    destruct (find_sep sep s) as [[b r]|]; discriminate.
Qed.

End Searching.

(** Separators of two distinct characters, such as ["\r\n"] and [": "]:
    a text that does not contain the separator is cut off whole. *)
Section TwoCharSeparator.

Variables a b : codepoint.
Hypothesis distinct : a <> b.

Lemma contains_step (c : codepoint) (s : str) :
  contains [a; b] (c :: s) =
    match strip_prefix [a; b] (c :: s) with
    | Some _ => true
    | None => contains [a; b] s
    end.
Proof.
  unfold contains. cbn [find_sep].
  destruct (strip_prefix [a; b] (c :: s)); [reflexivity|].
  now destruct (find_sep [a; b] s) as [[? ?]|].
Qed.

Lemma contains_cons (c : codepoint) (s : str) :
  contains [a; b] (c :: s) = false ->
  strip_prefix [a; b] (c :: s) = None /\ contains [a; b] s = false.
Proof.
  rewrite contains_step. now destruct (strip_prefix [a; b] (c :: s)).
Qed.

Lemma strip_prefix_grow (c : codepoint) (x : str) (d : codepoint) (y : str) :
  d <> b -> strip_prefix [a; b] (c :: x) = None ->
  strip_prefix [a; b] (c :: x ++ d :: y) = None.
Proof.
  intros Hd. simpl.
  destruct (N.eqb a c); [|reflexivity].
  destruct x as [|e x']; simpl.
  - intros _. destruct (N.eqb_spec b d); [congruence|reflexivity].
  - now destruct (N.eqb b e).
Qed.

Lemma find_sep_cut (l r : str) :
  contains [a; b] l = false -> find_sep [a; b] (l ++ [a; b] ++ r) = Some (l, r).
Proof.
  induction l as [|c l IH]; intros H.
  - simpl. now rewrite !N.eqb_refl.
  - apply contains_cons in H as [Hp Hl]. specialize (IH Hl).
    change ((c :: l) ++ [a; b] ++ r) with (c :: (l ++ [a; b] ++ r)).
    cbn [find_sep]. rewrite IH.
    cbn [app].
    rewrite strip_prefix_grow; [reflexivity| |assumption].
    intros E. now apply distinct.
Qed.

Lemma contains_skip (c : codepoint) (s : str) :
  c <> a -> contains [a; b] s = false -> contains [a; b] (c :: s) = false.
Proof.
  intros Hc H. rewrite contains_step, H. simpl.
  destruct (N.eqb_spec a c); [congruence|reflexivity].
Qed.

Lemma contains_app (x : str) (c : codepoint) (y : str) :
  c <> b -> contains [a; b] x = false -> contains [a; b] (c :: y) = false ->
  contains [a; b] (x ++ c :: y) = false.
Proof.
  intros Hc. induction x as [|d x IH]; intros Hx Hy; [exact Hy|].
  apply contains_cons in Hx as [Hp Hx].
  change ((d :: x) ++ c :: y) with (d :: (x ++ c :: y)).
  rewrite contains_step, (strip_prefix_grow _ _ _ y Hc Hp). now apply IH.
Qed.

End TwoCharSeparator.

(** ** UTF-8 encoding of concatenations and of ASCII literals *)

Lemma encode_utf8_app (x y : str) :
  encode_utf8 (x ++ y) =
    match encode_utf8 x, encode_utf8 y with
    | Some bx, Some by_ => Some (bx ++ by_)
    | _, _ => None
    end.
Proof.
  induction x as [|c x IH]; simpl.
  - now destruct (encode_utf8 y).
  - rewrite IH. destruct (encode_codepoint c), (encode_utf8 x), (encode_utf8 y);
      try reflexivity. now rewrite app_assoc.
Qed.

Lemma octet_ascii (c : ascii) : octet (N_of_ascii c) = byte_of_ascii c.
Proof. destruct c as [[] [] [] [] [] [] [] []]; reflexivity. Qed.

Lemma encode_lit (s : string) :
  ascii_only s = true -> encode_utf8 (lit s) = Some (blit s).
Proof.
  unfold ascii_only, lit, blit, list_byte_of_string.
  induction s as [|c s IH]; [reflexivity|].
  cbn [list_ascii_of_string forallb map encode_utf8].
  intros H. apply andb_true_iff in H as [Hc Hs].
  rewrite (IH Hs). unfold encode_codepoint. rewrite Hc.
  now rewrite octet_ascii.
Qed.

Lemma ascii_only_digits (d : Decimal.uint) :
  ascii_only (NilEmpty.string_of_uint d) = true.
Proof. induction d; simpl; auto. Qed.

Lemma ascii_only_int (z : Z) :
  ascii_only (NilZero.string_of_int (Z.to_int z)) = true.
Proof.
  destruct (Z.to_int z) as [d|d]; unfold NilZero.string_of_int, NilZero.string_of_uint;
    destruct d; try reflexivity;
    try (apply (ascii_only_digits (Decimal.D0 _)) || apply (ascii_only_digits (Decimal.D1 _)));
    simpl; try apply ascii_only_digits.
Qed.

Lemma encode_str_of_int (z : Z) :
  encode_utf8 (str_of_int z) = Some (blit (NilZero.string_of_int (Z.to_int z))).
Proof. apply encode_lit, ascii_only_int. Qed.

(** ** The loop of [generate_response] *)

Lemma fold_header_lines (l : list (str * str)) (acc : str) :
  fold_left (fun acc entry => acc ++ header_line entry) l acc
  = acc ++ List.concat (map header_line l).
Proof.
  revert acc. induction l as [|e l IH]; intros acc; simpl.
  - now rewrite app_nil_r.
  - now rewrite IH, app_assoc.
Qed.

Lemma header_lines_concat (headers : dict) :
  header_lines headers = List.concat (map header_line headers).
Proof. unfold header_lines, items. apply fold_header_lines. Qed.

(* ================================================================== *)
(** * The response serializer *)
(* ================================================================== *)

Lemma get_status_spec (code : Z) :
  get_status status_messages code (lit "Unknown Status") = lit (spec_reason code).
Proof.
  unfold status_messages, spec_reason. cbn [get_status].
  destruct (Z.eqb 200 code) eqn:E1; [apply Z.eqb_eq in E1; subst; reflexivity|].
  destruct (Z.eqb 404 code) eqn:E2; [apply Z.eqb_eq in E2; subst; reflexivity|].
  destruct (Z.eqb 500 code) eqn:E3; [apply Z.eqb_eq in E3; subst; reflexivity|].
  rewrite (Z.eqb_sym code 200), E1, (Z.eqb_sym code 404), E2, (Z.eqb_sym code 500), E3.
  reflexivity.
Qed.

Lemma spec_reason_ascii (code : Z) : ascii_only (spec_reason code) = true.
Proof.
  unfold spec_reason.
  destruct (Z.eqb code 200), (Z.eqb code 404), (Z.eqb code 500); reflexivity.
Qed.

Lemma encode_header_lines (headers : dict) (octets : list (bytes * bytes)) :
  encoded_as headers octets ->
  encode_utf8 (header_lines headers)
  = Some (List.concat (map (fun enc => fst enc ++ blit ": " ++ snd enc ++ crlf) octets)).
Proof.
  rewrite header_lines_concat.
  induction 1 as [|[name value] [bn bv] headers octets [Hn Hv] _ IH]; [reflexivity|].
  cbn [map List.concat fst snd] in *. rewrite encode_utf8_app, IH.
  unfold header_line. cbn [fst snd].
  rewrite !encode_utf8_app, Hn, Hv.
  change (encode_utf8 (lit ": ")) with (Some (blit ": ")).
  change (encode_utf8 CRLF) with (Some crlf).
  reflexivity.
Qed.

Lemma response_octets
    (status_code : Z) (headers : dict) (body : str)
    (octets : list (bytes * bytes)) (body_octets : bytes) :
  encoded_as headers octets ->
  encode_utf8 body = Some body_octets ->
  generate_response status_code headers body
  = inr (blit "HTTP/1.1 " ++ blit (decimal status_code) ++ blit " "
         ++ blit (spec_reason status_code) ++ crlf
         ++ List.concat (map (fun enc => fst enc ++ blit ": " ++ snd enc ++ crlf) octets)
         ++ crlf
         ++ body_octets).
Proof.
  intros Hh Hb. unfold generate_response, response_text.
  rewrite get_status_spec.
  rewrite !encode_utf8_app, (encode_header_lines _ _ Hh), Hb, encode_str_of_int.
  rewrite (encode_lit _ (spec_reason_ascii status_code)).
  change (encode_utf8 (lit "HTTP/1.1 ")) with (Some (blit "HTTP/1.1 ")).
  change (encode_utf8 (lit " ")) with (Some (blit " ")).
  change (encode_utf8 CRLF) with (Some crlf).
  unfold decimal. now rewrite <- !app_assoc.
Qed.

(** C4. For every status code, header mapping and body, [generate_response]
    returns exactly the octets of ["HTTP/1.1 <code> <reason>\r\n"], then of
    each header as ["<name>: <value>\r\n"] in the order of the mapping, then
    ["\r\n"], then the octets of the body; the reason phrase is "OK" for 200,
    "Not Found" for 404, "Internal Server Error" for 500 and "Unknown Status"
    for every other code.  Names, values and body are text in the source, so
    their octets are those of their UTF-8 encoding. *)
Theorem generate_response_layout
    (status_code : Z) (headers : dict) (body : str)
    (octets : list (bytes * bytes)) (body_octets : bytes) :
  encoded_as headers octets ->
  encode_utf8 body = Some body_octets ->
  generate_response status_code headers body
  = inr (blit "HTTP/1.1 " ++ blit (decimal status_code) ++ blit " "
         ++ blit (spec_reason status_code) ++ crlf
         ++ List.concat (map (fun enc => fst enc ++ blit ": " ++ snd enc ++ crlf) octets)
         ++ crlf
         ++ body_octets).
Proof. exact (response_octets status_code headers body octets body_octets). Qed.

Lemma generate_response_layout_witness :
  encoded_as [(lit "Content-Type", lit "text/html")]
             [(blit "Content-Type", blit "text/html")]
  /\ encode_utf8 (lit "hi") = Some (blit "hi")
  /\ generate_response 404 [(lit "Content-Type", lit "text/html")] (lit "hi")
     = inr (blit "HTTP/1.1 404 Not Found" ++ crlf
            ++ blit "Content-Type: text/html" ++ crlf ++ crlf ++ blit "hi")
  /\ generate_response 302 [] (lit "hi")
     = inr (blit "HTTP/1.1 302 Unknown Status" ++ crlf ++ crlf ++ blit "hi").
Proof.
  split; [repeat constructor|]. split; [reflexivity|]. split.
  - apply (generate_response_layout 404 [(lit "Content-Type", lit "text/html")]
             (lit "hi") [(blit "Content-Type", blit "text/html")] (blit "hi")).
    + repeat constructor.
    + reflexivity.
  - apply (generate_response_layout 302 [] (lit "hi") [] (blit "hi")).
    + constructor.
    + reflexivity.
Defined.

(** Text that UTF-8 cannot encode (a lone surrogate) makes the serializer
    raise instead. *)
Lemma generate_response_unencodable (status_code : Z) (headers : dict) (body : str) :
  encode_utf8 body = None ->
  generate_response status_code headers body = inl UnicodeEncodeError.
Proof.
  intros Hb. unfold generate_response, response_text.
  rewrite !encode_utf8_app, Hb.
  repeat match goal with
    | |- context [ match encode_utf8 ?x with _ => _ end ] => destruct (encode_utf8 x)
    end; reflexivity.
Qed.

(* ================================================================== *)
(** * Header blocks *)
(* ================================================================== *)

Lemma COLON_SP_eq : lit ": " = [58%N; 32%N].
Proof. reflexivity. Qed.

Lemma colon_not_space : 58%N <> 32%N.
Proof. discriminate. Qed.

Lemma cr_not_lf : CR <> LF.
Proof. discriminate. Qed.

Lemma header_line_bare (entry : str * str) :
  header_line entry = bare_line entry ++ CRLF.
Proof. unfold header_line, bare_line. now rewrite <- !app_assoc. Qed.

Lemma bare_line_no_crlf (entry : str * str) :
  contains CRLF (fst entry) = false -> contains CRLF (snd entry) = false ->
  contains CRLF (bare_line entry) = false.
Proof.
  intros Hn Hv. unfold bare_line. rewrite COLON_SP_eq. cbn [app].
  apply (contains_app CR LF); [discriminate|exact Hn|].
  apply (contains_skip CR LF); [discriminate|].
  apply (contains_skip CR LF); [discriminate|exact Hv].
Qed.

Lemma split_header_lines (headers : dict) :
  unambiguous headers ->
  split CRLF (header_lines headers) = map bare_line headers ++ [[]].
Proof.
  rewrite header_lines_concat.
  induction 1 as [|entry headers (_ & Hn & Hv) _ IH]; [reflexivity|].
  cbn [map List.concat app]. rewrite header_line_bare, <- app_assoc.
  rewrite split_eq by discriminate.
  unfold CRLF at 1 2.
  rewrite (find_sep_cut CR LF cr_not_lf) by now apply bare_line_no_crlf.
  now rewrite IH.
Qed.

Lemma set_fresh (k v : str) (d : dict) :
  ~ In k (map fst d) -> set k v d = d ++ [(k, v)].
Proof.
  induction d as [|[k' v'] d IH]; intros H; [reflexivity|].
  cbn [set app]. unfold str_eqb.
  destruct (list_eq_dec N.eq_dec k' k) as [->|_].
  - exfalso. apply H. now left.
  - f_equal. apply IH. intros Hin. apply H. now right.
Qed.

Lemma split1_bare_line (entry : str * str) :
  contains (lit ": ") (fst entry) = false ->
  split1 (lit ": ") (bare_line entry) = [fst entry; snd entry].
Proof.
  intros H. unfold split1, bare_line. rewrite COLON_SP_eq in *.
  now rewrite (find_sep_cut 58%N 32%N colon_not_space).
Qed.

Lemma bare_line_not_nil (entry : str * str) : bare_line entry <> [].
Proof.
  unfold bare_line. rewrite COLON_SP_eq. intros E.
  apply app_eq_nil in E as [_ E]. discriminate.
Qed.

Lemma parse_bare_lines (headers : dict) (rest : list str) (acc : dict) :
  unambiguous headers ->
  NoDup (map fst (acc ++ headers)) ->
  parse_headers (map bare_line headers ++ rest) acc
  = parse_headers rest (acc ++ headers).
Proof.
  intros Hu. revert acc.
  induction Hu as [|entry headers (Hc & _ & _) _ IH]; intros acc Hd.
  - now rewrite app_nil_r.
  - cbn [map app parse_headers].
    destruct (bare_line entry) as [|c line] eqn:E;
      [now apply bare_line_not_nil in E|].
    rewrite <- E, (split1_bare_line _ Hc).
    assert (Hfresh : ~ In (fst entry) (map fst acc)).
    { rewrite map_app in Hd. cbn [map] in Hd.
      apply NoDup_remove_2 in Hd. intros Hin. apply Hd, in_or_app. now left. }
    rewrite (set_fresh _ _ _ Hfresh).
    replace (acc ++ entry :: headers) with ((acc ++ [entry]) ++ headers) in *
      by now rewrite <- app_assoc.
    destruct entry as [name value]. cbn [fst snd]. now apply IH.
Qed.

(** C7, as amended.  For every header mapping whose names hold no [": "]
    and whose names and values hold no ["\r\n"], writing each entry as
    ["<name>: <value>\r\n"] in order and reading the block back with the
    header loop of [parse_request] (cut at ["\r\n"], then at the leftmost
    [": "]) gives the entries of the mapping again, in the same order. *)
Theorem headers_round_trip (headers : dict) :
  wf headers ->
  unambiguous headers ->
  parse_headers (split CRLF (header_lines headers)) empty = inr headers.
Proof.
  intros Hd Hu. rewrite (split_header_lines _ Hu).
  now rewrite (parse_bare_lines headers [[]] empty Hu Hd).
Qed.

Lemma headers_round_trip_witness :
  wf [(lit "Host", lit "a:b"); (lit "Accept", lit "*/*")]
  /\ unambiguous [(lit "Host", lit "a:b"); (lit "Accept", lit "*/*")]
  /\ parse_headers
       (split CRLF (header_lines [(lit "Host", lit "a:b"); (lit "Accept", lit "*/*")]))
       empty
     = inr [(lit "Host", lit "a:b"); (lit "Accept", lit "*/*")].
Proof.
  assert (Hd : wf [(lit "Host", lit "a:b"); (lit "Accept", lit "*/*")]).
  { unfold wf. cbn [map fst].
    repeat constructor; cbn [In]; intros H; repeat destruct H as [H|H];
      try discriminate H; exact H. }
  assert (Hu : unambiguous [(lit "Host", lit "a:b"); (lit "Accept", lit "*/*")]).
  { repeat constructor. }
  split; [exact Hd|]. split; [exact Hu|].
  exact (headers_round_trip _ Hd Hu).
Defined.

(** C7 as first stated fails: a name that holds [": "] is cut too early, and
    a name or a value that holds ["\r\n"] is read as two lines, the loop
    raising at the one without [": "]. *)
Lemma headers_round_trip_counterexample :
  wf [(lit "a: b", lit "c")]
  /\ parse_headers (split CRLF (header_lines [(lit "a: b", lit "c")])) empty
     = inr [(lit "a", lit "b: c")]
  /\ parse_headers (split CRLF (header_lines [(lit "a: b", lit "c")])) empty
     <> inr [(lit "a: b", lit "c")]
  /\ parse_headers
       (split CRLF (header_lines [(lit "a", lit "b" ++ CRLF ++ lit "c")])) empty
     = inl ValueError
  /\ parse_headers
       (split CRLF (header_lines [(lit "a" ++ CRLF ++ lit "b", lit "c")])) empty
     = inl ValueError.
Proof.
  split; [|split; [|split; [|split]]].
  - unfold wf. cbn [map fst]. repeat constructor. intros [].
  - reflexivity.
  - discriminate.
  - reflexivity.
  - reflexivity.
Qed.

(* ================================================================== *)
(** * Running the handlers *)
(* ================================================================== *)

Lemma after_nil (s : state) : after s [] = s.
Proof. destruct s. unfold after. cbn. now rewrite app_nil_r. Qed.

Lemma after_after (s : state) (x y : list event) :
  after (after s x) y = after s (x ++ y).
Proof. unfold after. cbn. now rewrite app_assoc. Qed.

Lemma generate_404 : generate_response 404 empty body_404 = inr response_404.
Proof. reflexivity. Qed.

Lemma generate_500 : generate_response 500 empty body_500 = inr response_500.
Proof. reflexivity. Qed.

Lemma sendall_run (payload : bytes) (h : host) (c : client) (s : state) :
  sendall payload h c s = (outcome (send_fault c (nsent s)), sent c s payload).
Proof.
  unfold sendall, outcome, sent. now destruct (send_fault c (nsent s)).
Qed.

Lemma print_run (o : output) (h : host) (c : client) (s : state) :
  print o h c s = (inr tt, after s [Stdout o]).
Proof. reflexivity. Qed.

Lemma for_each_print (f : str * str -> output) (l : list (str * str))
    (h : host) (c : client) (s : state) :
  for_each l (fun entry => print (f entry)) h c s
  = (inr tt, after s (map (fun entry => Stdout (f entry)) l)).
Proof.
  revert s. induction l as [|e l IH]; intros s; cbn [for_each map].
  - unfold ret. now rewrite after_nil.
  - unfold bind. rewrite print_run, IH, after_after. reflexivity.
Qed.

Lemma parse_request_run (request_data : str) (h : host) (c : client) (s : state) :
  parse_request request_data h c s
  = (parsed request_data, after s (parse_output request_data)).
Proof.
  unfold parse_request, parsed, parse_output.
  destruct (split CRLF request_data) as [|request_line header_block].
  - unfold raise. now rewrite after_nil.
  - unfold bind at 1. unfold lift at 1.
    destruct (unpack3 (split (lit " ") request_line)) as [e|[[method path] version]].
    + now rewrite after_nil.
    + unfold bind at 1. rewrite print_run.
      unfold bind at 1. unfold lift at 1.
      destruct (parse_headers header_block empty) as [e|headers].
      * reflexivity.
      * unfold bind at 1. rewrite print_run.
        unfold bind at 1.
        rewrite (for_each_print (fun entry => OutHeader (fst entry) (snd entry))).
        unfold ret. rewrite !after_after. reflexivity.
Qed.

Lemma recover_run (label : exn -> output) (e : exn) (h : host) (c : client) (s : state) :
  (print (label e) ;;
   response <- lift (generate_response 500 empty body_500) ;;
   sendall response)%eff h c s
  = recover c label e s.
Proof.
  unfold bind at 1. rewrite print_run.
  unfold bind, lift. rewrite generate_500, sendall_run. reflexivity.
Qed.

(** [serve_static_file], case by case. *)
Lemma serve_static_file_run (path : str) (h : host) (c : client) (s : state) :
  serve_static_file path h c s
  = match static_attempt h path with
    | (evs, inl e) => recover c OutStaticError e (after s evs)
    | (evs, inr response) =>
        match send_fault c (nsent s) with
        | None => (inr tt, sent c (after s evs) response)
        | Some e => recover c OutStaticError e (sent c (after s evs) response)
        end
    end.
Proof.
  cbv [serve_static_file try_except bind emit lift print path_exists open_read
       content_type_of sendall static_attempt recover sent after outcome].
  cbn [events nsent]. rewrite generate_500.
  destruct (fs h path) as [|content| |e|e] eqn:Hfs;
    cbn [events nsent]; rewrite ?Hfs;
    repeat match goal with
      | |- context [ generate_response ?n ?hs ?b ] =>
          lazymatch n with
          | 500%Z => fail
          | _ => destruct (generate_response n hs b)
          end
      end;
    faults c.
Qed.

Lemma generate_greeting :
  generate_response 200
    (set (lit "Content-Length") (str_of_len (List.length greeting))
       (set (lit "Content-Type") (lit "text/html") empty))
    greeting
  = inr greeting_response.
Proof. reflexivity. Qed.

(** [handle_client], case by case. *)
Lemma handle_client_run (h : host) (c : client) (s : state) :
  handle_client h c s
  = match request_text c with
    | inl e => closing (recover c OutClientError e (after s [Recv 1024]))
    | inr text =>
        let s1 := after s (Recv 1024 :: parse_output text) in
        match parsed text with
        | inl e => closing (recover c OutClientError e s1)
        | inr (_, path, _, _) =>
            if str_eqb path (lit "/") then (inr tt, after s1 [CloseClient])
            else
              match serve_static_file (lstrip (lit "/") path) h c s1 with
              | (inr u, s2) => (inr u, after s2 [CloseClient])
              | (inl e, s2) => closing (recover c OutClientError e s2)
              end
        end
    end.
Proof.
  cbv [handle_client try_finally try_except bind recv emit lift close ret
       request_text closing recover sent after outcome print sendall fst snd].
  cbn [events nsent]. rewrite generate_500.
  destruct (incoming c) as [e|data]; [faults c|].
  destruct (decode_utf8 (firstn 1024 data)) as [text|]; [|faults c].
  rewrite parse_request_run.
  destruct (parsed text) as [e|[[[method path] version] headers]]; [faults c|].
  destruct (str_eqb path (lit "/")).
  - rewrite generate_greeting. faults c.
  - cbn [after events nsent].
    replace (events s ++ Recv 1024 :: parse_output text)
      with ((events s ++ [Recv 1024]) ++ parse_output text)
      by now rewrite <- app_assoc.
    destruct (serve_static_file _ h c _) as [[e|[]] s2]; faults c.
Qed.

(** ** Counting events *)

Lemma sends_app (x y : list event) : sends (x ++ y) = sends x ++ sends y.
Proof.
  induction x as [|e x IH]; [reflexivity|].
  destruct e; cbn [app sends]; now rewrite ?IH.
Qed.

Lemma closes_app (x y : list event) : closes (x ++ y) = closes x + closes y.
Proof.
  induction x as [|e x IH]; [reflexivity|].
  destruct e; cbn [app closes]; now rewrite ?IH.
Qed.

Lemma prints_quiet (f : str * str -> output) (l : list (str * str)) :
  sends (map (fun entry => Stdout (f entry)) l) = []
  /\ closes (map (fun entry => Stdout (f entry)) l) = 0.
Proof. induction l as [|e l [IH1 IH2]]; split; auto. Qed.

Lemma parse_output_quiet (text : str) :
  sends (parse_output text) = [] /\ closes (parse_output text) = 0.
Proof.
  unfold parse_output.
  destruct (split CRLF text) as [|request_line header_block]; [now split|].
  destruct (unpack3 _) as [e|[[method path] version]]; [now split|].
  destruct (parse_headers _ _) as [e|headers]; [now split|].
  cbn [sends closes]. apply prints_quiet.
Qed.

Lemma static_attempt_quiet (h : host) (path : str) :
  sends (fst (static_attempt h path)) = []
  /\ closes (fst (static_attempt h path)) = 0.
Proof. unfold static_attempt. destruct (fs h path); now split. Qed.

Lemma delivered_app (x y : list event) :
  delivered (x ++ y) = delivered x ++ delivered y.
Proof.
  induction x as [|e x IH]; [reflexivity|].
  destruct e as [| | | |payload [fault|]| | |]; cbn [app delivered]; now rewrite ?IH.
Qed.

Lemma silent_delivers_nothing (evs : list event) :
  sends evs = [] -> delivered evs = [].
Proof.
  induction evs as [|e evs IH]; [reflexivity|].
  destruct e; cbn [sends delivered]; try exact IH. discriminate.
Qed.

(** ** The accept loop, one connection at a time *)

Lemma serve_next (h : host) (c : client) (script : list accepted) :
  fst (run_client h c) = inr tt ->
  serve h (Connection c :: script)
  = Accept true :: snd (run_client h c) ++ serve h script.
Proof.
  unfold serve, run_client. cbn [accept_loop].
  destruct (handle_client h c init) as [[e|[]] s]; cbn [fst snd]; [discriminate|].
  intros _. destruct (accept_loop h script) as [evs why].
  cbn [app]. now rewrite <- app_assoc.
Qed.

Lemma serve_last (h : host) (c : client) (script : list accepted) (e : exn) :
  fst (run_client h c) = inl e ->
  serve h (Connection c :: script)
  = Accept true :: snd (run_client h c)
    ++ [Stdout (OutServerError e); CloseServer; Stdout OutServerClosed].
Proof.
  unfold serve, run_client. cbn [accept_loop].
  destruct (handle_client h c init) as [[e'|[]] s]; cbn [fst snd]; [|discriminate].
  intros [= ->]. reflexivity.
Qed.

(* ================================================================== *)
(** * The root path *)
(* ================================================================== *)

(** Whatever the host and the peer, a request whose path is ["/"] is given no
    answer: the response is built and dropped. *)
Lemma root_never_answered (h : host) (c : client) (text method version : str)
    (headers : dict) :
  request_text c = inr text ->
  parsed text = inr (method, lit "/", version, headers) ->
  run_client h c = (inr tt, Recv 1024 :: parse_output text ++ [CloseClient])
  /\ sends (snd (run_client h c)) = [].
Proof.
  intros Ht Hp. unfold run_client. rewrite handle_client_run, Ht. cbn zeta.
  rewrite Hp. change (str_eqb (lit "/") (lit "/")) with true. cbn iota.
  cbn [after events init app snd]. split; [reflexivity|].
  cbn [sends]. rewrite sends_app. now rewrite (proj1 (parse_output_quiet text)).
Qed.

(** C1, at the request [GET / HTTP/1.1]: the handler prints the request,
    closes the connection and returns; nothing is handed to [sendall], so the
    peer receives no status 200, no header and no greeting. *)
Theorem root_request_not_answered :
  run_client empty_host (peer (get_line "/" ++ crlf))
  = (inr tt,
     [Recv 1024;
      Stdout (OutRequestLine (lit "GET") (lit "/") (lit "HTTP/1.1"));
      Stdout OutHeadersBanner;
      CloseClient])
  /\ delivered (snd (run_client empty_host (peer (get_line "/" ++ crlf)))) = [].
Proof. split; vm_compute; reflexivity. Qed.

(* ================================================================== *)
(** * Static files *)
(* ================================================================== *)

(** C3, at a file holding the single octet [0xFF]: the response announces
    [Content-Length: 1] and carries the two octets [0xC3 0xBF], the UTF-8
    encoding of U+00FF, instead of the octet of the file. *)
Theorem high_octet_file_is_reencoded :
  run_client (host_with (lit "a.bin") (Regular [xff])) (peer (get_line "/a.bin" ++ crlf))
  = (inr tt,
     [Recv 1024;
      Stdout (OutRequestLine (lit "GET") (lit "/a.bin") (lit "HTTP/1.1"));
      Stdout OutHeadersBanner;
      PathExists (lit "a.bin");
      OpenRead (lit "a.bin");
      SendAll (blit "HTTP/1.1 200 OK" ++ crlf
               ++ blit "Content-Type: application/octet-stream" ++ crlf
               ++ blit "Content-Length: 1" ++ crlf
               ++ crlf
               ++ [xc3; xbf]) None;
      CloseClient]).
Proof. vm_compute. reflexivity. Qed.

Lemma octet_of_byte (b : byte) : octet (Byte.to_N b) = b.
Proof. destruct b; reflexivity. Qed.

Lemma encode_latin1_ascii (content : bytes) :
  Forall (fun b => (Byte.to_N b < 128)%N) content ->
  encode_utf8 (decode_latin1 content) = Some content.
Proof.
  induction 1 as [|b content Hb _ IH]; [reflexivity|].
  cbn [decode_latin1 map encode_utf8]. fold (decode_latin1 content). rewrite IH.
  unfold encode_codepoint. apply N.ltb_lt in Hb. rewrite Hb.
  now rewrite octet_of_byte.
Qed.

(** The re-encoding is harmless below 128: a file of 7-bit octets is sent
    as it is, under a [Content-Length] that counts its octets. *)
Lemma ascii_file_served_verbatim (h : host) (c : client) (s : state)
    (path : str) (content type_octets : bytes) :
  fs h path = Regular content ->
  Forall (fun b => (Byte.to_N b < 128)%N) content ->
  encode_utf8 (get_content_type (guess_type h) path) = Some type_octets ->
  send_fault c (nsent s) = None ->
  serve_static_file path h c s
  = (inr tt,
     {| events :=
          events s
          ++ [PathExists path; OpenRead path;
              SendAll (blit "HTTP/1.1 200 OK" ++ crlf
                       ++ blit "Content-Type: " ++ type_octets ++ crlf
                       ++ blit "Content-Length: "
                       ++ blit (decimal (Z.of_nat (List.length content))) ++ crlf
                       ++ crlf
                       ++ content) None];
        nsent := S (nsent s) |}).
Proof.
  intros Hfs Hascii Htype Hsend.
  rewrite serve_static_file_run. unfold static_attempt. rewrite Hfs.
  cbn [set empty].
  change (str_eqb (lit "Content-Type") (lit "Content-Length")) with false.
  cbn iota.
  rewrite (response_octets 200 _ _
             [(blit "Content-Type", type_octets);
              (blit "Content-Length", blit (decimal (Z.of_nat (List.length content))))]
             content).
  - rewrite Hsend. unfold sent, after. cbn [events nsent]. rewrite Hsend.
    cbn [map List.concat fst snd app]. rewrite <- !app_assoc. reflexivity.
  - constructor; [split; [reflexivity|exact Htype]|].
    constructor; [split; [reflexivity|apply encode_str_of_int]|constructor].
  - now apply encode_latin1_ascii.
Qed.

Lemma absent_run (h : host) (c : client) (s : state) (path : str) :
  fs h path = Absent \/ (exists e, fs h path = Uncheckable e) ->
  serve_static_file path h c s
  = match send_fault c (nsent s) with
    | None => (inr tt, sent c (after s [PathExists path]) response_404)
    | Some e =>
        recover c OutStaticError e (sent c (after s [PathExists path]) response_404)
    end.
Proof.
  intros Hfs. rewrite serve_static_file_run. unfold static_attempt.
  destruct Hfs as [Hfs|[e Hfs]]; rewrite Hfs, generate_404; reflexivity.
Qed.

(** C6, as amended.  For every static-file request: when the path does not
    exist, or when the existence check itself fails (which [os.path.exists]
    reports as an absent path), the handler answers 404 with no header line
    and the body ["404 Not Found"]; when opening or reading the file raises,
    it answers 500 with no header line and the body
    ["500 Internal Server Error"]. *)
Theorem static_file_errors (h : host) (c : client) (s : state) (path : str) :
  generate_response 404 empty (lit "404 Not Found") = inr response_404
  /\ generate_response 500 empty (lit "500 Internal Server Error") = inr response_500
  /\ (fs h path = Absent \/ (exists e, fs h path = Uncheckable e) ->
      responds c s (snd (serve_static_file path h c s)) response_404
      /\ (send_fault c (nsent s) = None ->
          serve_static_file path h c s
          = (inr tt,
             {| events := events s ++ [PathExists path; SendAll response_404 None];
                nsent := S (nsent s) |})))
  /\ (forall e, fs h path = Unreadable e ->
      responds c s (snd (serve_static_file path h c s)) response_500
      /\ serve_static_file path h c s
         = (outcome (send_fault c (nsent s)),
            {| events :=
                 events s
                 ++ [PathExists path; OpenRead path;
                     Stdout (OutStaticError e);
                     SendAll response_500 (send_fault c (nsent s))];
               nsent := S (nsent s) |})).
Proof.
  split; [reflexivity|]. split; [reflexivity|]. split.
  - intros Hfs. rewrite (absent_run h c s path Hfs). split.
    + destruct (send_fault c (nsent s)) as [e|] eqn:F.
      * exists [PathExists path].
        exists [Stdout (OutStaticError e); SendAll response_500 (send_fault c (S (nsent s)))].
        unfold recover, sent, after. cbn [snd events nsent]. rewrite F.
        repeat split; [now rewrite <- !app_assoc|discriminate].
      * exists [PathExists path], []. unfold sent, after. cbn [snd events nsent].
        rewrite F. repeat split. now rewrite <- !app_assoc.
    + intros F. rewrite F. unfold sent, after. cbn [events nsent].
      rewrite F. now rewrite <- !app_assoc.
  - intros e Hfs. rewrite serve_static_file_run. unfold static_attempt.
    rewrite Hfs. unfold recover, sent, after. cbn [fst snd events nsent]. split.
    + exists [PathExists path; OpenRead path; Stdout (OutStaticError e)], [].
      repeat split. now rewrite <- !app_assoc.
    + now rewrite <- !app_assoc.
Qed.

Lemma static_file_errors_witness :
  fs empty_host (lit "missing.txt") = Absent
  /\ serve_static_file (lit "missing.txt") empty_host (peer []) init
     = (inr tt,
        {| events := [PathExists (lit "missing.txt"); SendAll response_404 None];
           nsent := 1 |})
  /\ fs (host_with (lit "loop") (Uncheckable OSError)) (lit "loop") = Uncheckable OSError
  /\ serve_static_file (lit "loop") (host_with (lit "loop") (Uncheckable OSError))
       (peer []) init
     = (inr tt,
        {| events := [PathExists (lit "loop"); SendAll response_404 None];
           nsent := 1 |})
  /\ fs (host_with (lit "locked") (Unreadable PermissionError)) (lit "locked")
     = Unreadable PermissionError
  /\ serve_static_file (lit "locked")
       (host_with (lit "locked") (Unreadable PermissionError)) (peer []) init
     = (inr tt,
        {| events := [PathExists (lit "locked"); OpenRead (lit "locked");
                      Stdout (OutStaticError PermissionError);
                      SendAll response_500 None];
           nsent := 1 |}).
Proof.
  split; [reflexivity|]. split.
  { apply (static_file_errors empty_host (peer []) init (lit "missing.txt"));
      [left|]; reflexivity. }
  split; [reflexivity|]. split.
  { apply (static_file_errors (host_with (lit "loop") (Uncheckable OSError))
             (peer []) init (lit "loop")); [right; now exists OSError|reflexivity]. }
  split; [reflexivity|].
  apply (static_file_errors (host_with (lit "locked") (Unreadable PermissionError))
           (peer []) init (lit "locked")) with (e := PermissionError).
  reflexivity.
Defined.

(** C6 as first stated fails: when the existence check fails ([os.stat]
    raises, as on a loop of symbolic links), [os.path.exists] answers
    [False] and the handler sends the 404 response, not the 500 one. *)
Lemma static_file_errors_counterexample :
  fs (host_with (lit "loop") (Uncheckable OSError)) (lit "loop") = Uncheckable OSError
  /\ run_client (host_with (lit "loop") (Uncheckable OSError))
       (peer (get_line "/loop" ++ crlf))
     = (inr tt,
        [Recv 1024;
         Stdout (OutRequestLine (lit "GET") (lit "/loop") (lit "HTTP/1.1"));
         Stdout OutHeadersBanner;
         PathExists (lit "loop");
         SendAll response_404 None;
         CloseClient])
  /\ delivered (snd (run_client (host_with (lit "loop") (Uncheckable OSError))
                        (peer (get_line "/loop" ++ crlf))))
     <> [response_500].
Proof.
  split; [reflexivity|]. split; [vm_compute; reflexivity|].
  vm_compute. discriminate.
Qed.

Lemma str_eqb_false (a b : str) : a <> b -> str_eqb a b = false.
Proof.
  intros H. unfold str_eqb. now destruct (list_eq_dec N.eq_dec a b).
Qed.

(** A well-formed request for a path other than ["/"] is parsed, printed and
    passed on; an exception that leaves [serve_static_file] is answered once
    more by [handle_client]. *)
Lemma static_request_run (h : host) (c : client) (text method path version : str)
    (headers : dict) :
  request_text c = inr text ->
  parsed text = inr (method, path, version, headers) ->
  path <> lit "/" ->
  handle_client h c init
  = match serve_static_file (lstrip (lit "/") path) h c
            (after init (Recv 1024 :: parse_output text)) with
    | (inr u, s) => (inr u, after s [CloseClient])
    | (inl e, s) => closing (recover c OutClientError e s)
    end.
Proof.
  intros Ht Hp Hne. rewrite handle_client_run, Ht. cbn zeta.
  now rewrite Hp, (str_eqb_false _ _ Hne).
Qed.




(* ================================================================== *)
(** * Malformed requests *)
(* ================================================================== *)

Lemma unpack3_bad (parts : list str) :
  List.length parts <> 3 -> unpack3 parts = inl ValueError.
Proof.
  destruct parts as [|a [|b [|c [|d parts]]]]; cbn; intros H;
    try reflexivity. now contradict H.
Qed.

Lemma unpack3_raises (parts : list str) (e : exn) :
  unpack3 parts = inl e -> e = ValueError.
Proof.
  destruct parts as [|a [|b [|c [|d parts]]]]; cbn; congruence.
Qed.

Lemma split1_no_separator (sep line : str) :
  contains sep line = false -> split1 sep line = [line].
Proof.
  unfold contains, split1. now destruct (find_sep sep line) as [[? ?]|].
Qed.

Lemma parse_headers_bad (before : list str) (line : str) (rest : list str)
    (acc : dict) :
  Forall (fun l => l <> []) before ->
  line <> [] ->
  contains (lit ": ") line = false ->
  parse_headers (before ++ line :: rest) acc = inl ValueError.
Proof.
  intros Hb Hl Hc. revert acc.
  induction Hb as [|l before Hne _ IH]; intros acc; cbn [app parse_headers].
  - destruct line as [|ch line]; [congruence|].
    now rewrite (split1_no_separator _ _ Hc).
  - destruct l as [|ch l]; [congruence|].
    unfold split1. destruct (find_sep (lit ": ") (ch :: l)) as [[name value]|];
      [apply IH|reflexivity].
Qed.

Lemma parsed_malformed (text request_line : str) (header_block : list str) :
  split CRLF text = request_line :: header_block ->
  (List.length (split (lit " ") request_line) <> 3
   \/ exists before line rest,
        header_block = before ++ line :: rest
        /\ Forall (fun l => l <> []) before
        /\ line <> []
        /\ contains (lit ": ") line = false) ->
  parsed text = inl ValueError.
Proof.
  intros Hs H. unfold parsed. rewrite Hs.
  destruct H as [H|(before & line & rest & -> & Hb & Hl & Hc)].
  - now rewrite (unpack3_bad _ H).
  - destruct (unpack3 _) as [e|[[method path] version]] eqn:U.
    + now rewrite (unpack3_raises _ _ U).
    + now rewrite (parse_headers_bad _ _ rest empty Hb Hl Hc).
Qed.

(** A request that cannot be read, decoded or parsed is answered 500. *)
Lemma rejected_request_run (h : host) (c : client) (printed : list event) (e : exn) :
  (request_text c = inl e /\ printed = [])
  \/ (exists text, request_text c = inr text /\ parsed text = inl e
                   /\ printed = parse_output text) ->
  run_client h c
  = (outcome (send_fault c 0),
     Recv 1024 :: printed
     ++ [Stdout (OutClientError e); SendAll response_500 (send_fault c 0); CloseClient]).
Proof.
  unfold run_client. rewrite handle_client_run.
  intros [[-> ->]|(text & -> & Hp & ->)]; cbn zeta; rewrite ?Hp;
    unfold closing, recover, sent, after; cbn [init fst snd events nsent app];
    f_equal; same_events.
Qed.

(** C5, as amended.  For every raw request whose first line does not split
    into exactly three space-separated tokens, or that has, before the first
    empty line, a header line without [": "], the [ValueError] is caught in
    [handle_client], which hands the 500 response to [sendall] exactly once
    and closes the connection.  When that [sendall] succeeds, the peer
    receives the 500 response, the handler returns and the accept loop goes
    on with the next connection.  When it fails, nothing is delivered, the
    exception leaves the handler and ends the accept loop: the error is
    printed and the listening socket closed. *)
Theorem malformed_request_gets_500 (h : host) (c : client)
    (text request_line : str) (header_block : list str) :
  request_text c = inr text ->
  split CRLF text = request_line :: header_block ->
  (List.length (split (lit " ") request_line) <> 3
   \/ exists before line rest,
        header_block = before ++ line :: rest
        /\ Forall (fun l => l <> []) before
        /\ line <> []
        /\ contains (lit ": ") line = false) ->
  run_client h c
  = (outcome (send_fault c 0),
     Recv 1024 :: parse_output text
     ++ [Stdout (OutClientError ValueError);
         SendAll response_500 (send_fault c 0);
         CloseClient])
  /\ sends (snd (run_client h c)) = [(response_500, send_fault c 0)]
  /\ (send_fault c 0 = None ->
      fst (run_client h c) = inr tt
      /\ delivered (snd (run_client h c)) = [response_500]
      /\ forall script,
           serve h (Connection c :: script)
           = Accept true :: snd (run_client h c) ++ serve h script)
  /\ (forall e, send_fault c 0 = Some e ->
      fst (run_client h c) = inl e
      /\ delivered (snd (run_client h c)) = []
      /\ forall script,
           serve h (Connection c :: script)
           = Accept true :: snd (run_client h c)
             ++ [Stdout (OutServerError e); CloseServer; Stdout OutServerClosed]).
Proof.
  intros Ht Hs Hbad.
  pose proof (parsed_malformed _ _ _ Hs Hbad) as Hp.
  assert (Hrun := rejected_request_run h c (parse_output text) ValueError).
  rewrite Hrun by (right; exists text; auto).
  split; [reflexivity|]. split; [|split].
  - cbn [snd sends]. rewrite sends_app, (proj1 (parse_output_quiet text)). reflexivity.
  - intros F. rewrite F. cbn [fst snd outcome]. split; [reflexivity|]. split.
    + cbn [delivered]. rewrite delivered_app,
        (silent_delivers_nothing _ (proj1 (parse_output_quiet text))).
      reflexivity.
    + intros script. rewrite serve_next; rewrite Hrun by (right; exists text; auto);
        rewrite F; reflexivity.
  - intros e F. rewrite F. cbn [fst snd outcome]. split; [reflexivity|]. split.
    + cbn [delivered]. rewrite delivered_app,
        (silent_delivers_nothing _ (proj1 (parse_output_quiet text))).
      reflexivity.
    + intros script.
      rewrite (serve_last h c script e); rewrite Hrun by (right; exists text; auto);
        rewrite F; reflexivity.
Qed.

Lemma malformed_request_gets_500_witness :
  request_text (peer (blit "GET /" ++ crlf ++ crlf)) = inr (lit "GET /" ++ CRLF ++ CRLF)
  /\ split CRLF (lit "GET /" ++ CRLF ++ CRLF) = [lit "GET /"; []; []]
  /\ List.length (split (lit " ") (lit "GET /")) <> 3
  /\ run_client empty_host (peer (blit "GET /" ++ crlf ++ crlf))
     = (inr tt,
        [Recv 1024; Stdout (OutClientError ValueError);
         SendAll response_500 None; CloseClient]).
Proof.
  split; [reflexivity|]. split; [reflexivity|]. split; [discriminate|].
  refine (proj1 (malformed_request_gets_500 empty_host
                   (peer (blit "GET /" ++ crlf ++ crlf))
                   (lit "GET /" ++ CRLF ++ CRLF) (lit "GET /") [[]; []] _ _ _)).
  - reflexivity.
  - reflexivity.
  - left. discriminate.
Defined.

(** C5 as first stated fails: a peer that sends a malformed request and is
    gone before the answer is sent no 500 response, and the exception of the
    failed [sendall] stops the server. *)
Lemma malformed_request_counterexample :
  request_text (lost_peer (blit "GET /" ++ crlf ++ crlf))
  = inr (lit "GET /" ++ CRLF ++ CRLF)
  /\ List.length (split (lit " ") (lit "GET /")) <> 3
  /\ run_client empty_host (lost_peer (blit "GET /" ++ crlf ++ crlf))
     = (inl ConnectionError,
        [Recv 1024; Stdout (OutClientError ValueError);
         SendAll response_500 (Some ConnectionError); CloseClient])
  /\ delivered (snd (run_client empty_host (lost_peer (blit "GET /" ++ crlf ++ crlf))))
     = []
  /\ serve empty_host
       [Connection (lost_peer (blit "GET /" ++ crlf ++ crlf));
        Connection (peer (get_line "/x" ++ crlf))]
     = [Accept true;
        Recv 1024; Stdout (OutClientError ValueError);
        SendAll response_500 (Some ConnectionError); CloseClient;
        Stdout (OutServerError ConnectionError); CloseServer;
        Stdout OutServerClosed].
Proof.
  split; [reflexivity|]. split; [discriminate|].
  repeat split; vm_compute; reflexivity.
Qed.

(* ================================================================== *)
(** * Routing *)
(* ================================================================== *)

Lemma lstrip_slash_cons (c : codepoint) (path : str) :
  lstrip (lit "/") (c :: path)
  = if N.eqb c 47 then lstrip (lit "/") path else c :: path.
Proof.
  cbn [lstrip]. change (existsb (N.eqb c) (lit "/")) with (N.eqb c 47 || false).
  now rewrite orb_false_r.
Qed.

Lemma lstrip_slash_spec (path : str) :
  (exists k, path = repeat 47%N k ++ lstrip (lit "/") path)
  /\ hd_error (lstrip (lit "/") path) <> Some 47%N.
Proof.
  induction path as [|c path [[k IH1] IH2]].
  - split; [now exists 0|discriminate].
  - rewrite lstrip_slash_cons. destruct (N.eqb_spec c 47) as [->|Hc].
    + split; [|exact IH2]. exists (S k). cbn [repeat app]. now f_equal.
    + split; [now exists 0|]. cbn. congruence.
Qed.

Lemma lstrip_single_slash (rest : str) :
  hd_error rest <> Some 47%N -> lstrip (lit "/") (47%N :: rest) = rest.
Proof.
  intros H. rewrite lstrip_slash_cons. cbn [N.eqb Pos.eqb].
  destruct rest as [|c rest]; [reflexivity|].
  rewrite lstrip_slash_cons. destruct (N.eqb_spec c 47) as [->|]; [|reflexivity].
  now contradict H.
Qed.

Lemma static_first_event (path : str) (h : host) (c : client) (s : state) :
  exists rest,
    events (snd (serve_static_file path h c s)) = events s ++ PathExists path :: rest.
Proof.
  rewrite serve_static_file_run. unfold static_attempt, recover, sent, after.
  destruct (fs h path);
    repeat match goal with
      | |- context [ generate_response ?n ?hs ?b ] =>
          destruct (generate_response n hs b)
      end;
    repeat (cbn [events nsent];
            match goal with
            | |- context [ match send_fault c ?n with _ => _ end ] =>
                destruct (send_fault c n)
            end);
    cbn [snd events nsent app]; rewrite <- ?app_assoc; cbn [app];
    eexists; reflexivity.
Qed.

(** C8, as amended.  For every parsed request path other than exactly ["/"],
    the router removes every leading ["/"] of the path ([path.lstrip('/')])
    and hands the remainder, which never starts with ["/"], to the static
    file handler as a path relative to the working directory; for a path
    with a single leading ["/"] the remainder is the path without it. *)
Theorem static_delegation (h : host) (c : client)
    (text method path version : str) (headers : dict) :
  request_text c = inr text ->
  parsed text = inr (method, path, version, headers) ->
  path <> lit "/" ->
  handle_client h c init
  = match serve_static_file (lstrip (lit "/") path) h c
            (after init (Recv 1024 :: parse_output text)) with
    | (inr u, s) => (inr u, after s [CloseClient])
    | (inl e, s) => closing (recover c OutClientError e s)
    end
  /\ (exists rest,
        snd (run_client h c)
        = Recv 1024 :: parse_output text ++ PathExists (lstrip (lit "/") path) :: rest)
  /\ (exists k, path = repeat 47%N k ++ lstrip (lit "/") path)
  /\ hd_error (lstrip (lit "/") path) <> Some 47%N
  /\ (forall rest, path = 47%N :: rest -> hd_error rest <> Some 47%N ->
      lstrip (lit "/") path = rest).
Proof.
  intros Ht Hp Hne.
  pose proof (static_request_run h c _ _ _ _ _ Ht Hp Hne) as Hrun.
  split; [exact Hrun|]. split; [|split; [|split]].
  - unfold run_client. rewrite Hrun.
    destruct (static_first_event (lstrip (lit "/") path) h c
                (after init (Recv 1024 :: parse_output text))) as [rest Hev].
    destruct (serve_static_file _ h c _) as [[e|u] s]; cbn [snd] in Hev.
    + unfold closing, recover, sent, after in *. cbn [fst snd events nsent init app] in *.
      rewrite Hev. eexists. same_events.
    + unfold after in *. cbn [snd events init app] in *.
      rewrite Hev. eexists. same_events.
  - apply lstrip_slash_spec.
  - apply lstrip_slash_spec.
  - intros rest -> Hrest. now apply lstrip_single_slash.
Qed.

Lemma static_delegation_witness :
  request_text (peer (get_line "//srv/notes.txt" ++ crlf))
  = inr (lit "GET //srv/notes.txt HTTP/1.1" ++ CRLF ++ CRLF)
  /\ parsed (lit "GET //srv/notes.txt HTTP/1.1" ++ CRLF ++ CRLF)
     = inr (lit "GET", lit "//srv/notes.txt", lit "HTTP/1.1", [])
  /\ lit "//srv/notes.txt" <> lit "/"
  /\ lit "//srv/notes.txt" = repeat 47%N 2 ++ lit "srv/notes.txt"
  /\ hd_error (lstrip (lit "/") (lit "//srv/notes.txt")) <> Some 47%N.
Proof.
  split; [reflexivity|]. split; [reflexivity|]. split; [discriminate|].
  split; [reflexivity|].
  refine (proj1 (proj2 (proj2 (proj2 (static_delegation empty_host
            (peer (get_line "//srv/notes.txt" ++ crlf))
            (lit "GET //srv/notes.txt HTTP/1.1" ++ CRLF ++ CRLF)
            (lit "GET") (lit "//srv/notes.txt") (lit "HTTP/1.1") [] _ _ _))))).
  - reflexivity.
  - reflexivity.
  - discriminate.
Defined.

(** C8 as first stated fails: of the two leading ["/"] of [//a] both are
    removed, and the static file handler is asked for [a], not for [/a]. *)
Lemma static_delegation_counterexample :
  parsed (lit "GET //a HTTP/1.1" ++ CRLF ++ CRLF)
  = inr (lit "GET", lit "//a", lit "HTTP/1.1", [])
  /\ strip_one_slash (lit "//a") = lit "/a"
  /\ run_client empty_host (peer (get_line "//a" ++ crlf))
     = (inr tt,
        [Recv 1024;
         Stdout (OutRequestLine (lit "GET") (lit "//a") (lit "HTTP/1.1"));
         Stdout OutHeadersBanner;
         PathExists (lit "a");
         SendAll response_404 None;
         CloseClient])
  /\ ~ In (PathExists (strip_one_slash (lit "//a")))
          (snd (run_client empty_host (peer (get_line "//a" ++ crlf)))).
Proof.
  split; [reflexivity|]. split; [reflexivity|]. split; [vm_compute; reflexivity|].
  vm_compute. intros H. repeat destruct H as [H|H]; try discriminate H. exact H.
Qed.

(* ================================================================== *)
(** * The connection boundary *)
(* ================================================================== *)

(** The client socket is closed once, as the last event of the handler. *)
Lemma closed_once (h : host) (c : client) :
  exists before,
    snd (run_client h c) = before ++ [CloseClient] /\ closes before = 0.
Proof.
  unfold run_client. rewrite handle_client_run.
  pose proof (fun text => proj2 (parse_output_quiet text)) as Hq.
  destruct (request_text c) as [e|text]; cbn zeta.
  - unfold closing, recover, sent, after. cbn [fst snd events nsent init].
    eexists. split; [reflexivity|]. reflexivity.
  - destruct (parsed text) as [e|[[[method path] version] headers]].
    + unfold closing, recover, sent, after. cbn [fst snd events nsent init].
      eexists. split; [reflexivity|].
      cbn [app closes]. rewrite !closes_app, Hq. reflexivity.
    + destruct (str_eqb path (lit "/")).
      * unfold after. cbn [snd events init]. eexists. split; [reflexivity|].
        cbn [app closes]. apply Hq.
      * rewrite serve_static_file_run.
        pose proof (proj2 (static_attempt_quiet h (lstrip (lit "/") path))) as Hs.
        destruct (static_attempt h (lstrip (lit "/") path)) as [evs [e|response]];
          cbn [fst] in Hs;
          unfold closing, recover, sent, after; cbn [fst snd events nsent init];
          repeat (match goal with
                  | |- context [ send_fault c ?n ] => destruct (send_fault c n)
                  end; cbn [fst snd events nsent outcome]);
          (eexists; split; [reflexivity|]);
          cbn [app closes]; rewrite !closes_app, ?Hq, ?Hs; reflexivity.
Qed.

(** An exception leaves [handle_client] only from the [sendall] of its own
    [except] branch. *)
Lemma raised_by_last_send (h : host) (c : client) (e : exn) :
  fst (run_client h c) = inl e ->
  exists before,
    snd (run_client h c) = before ++ [SendAll response_500 (Some e); CloseClient].
Proof.
  unfold run_client. rewrite handle_client_run.
  assert (Hrec : forall e0 s,
             fst (closing (recover c OutClientError e0 s)) = inl e ->
             exists before,
               events (snd (closing (recover c OutClientError e0 s)))
               = before ++ [SendAll response_500 (Some e); CloseClient]).
  { intros e0 s. unfold closing, recover, sent, after. cbn [fst snd events nsent].
    destruct (send_fault c (nsent s)) as [e1|]; cbn [outcome]; [|discriminate].
    intros [= ->]. eexists. rewrite <- app_assoc. reflexivity. }
  destruct (request_text c) as [e0|text]; cbn zeta.
  - destruct (closing _) as [r s] eqn:E. specialize (Hrec e0 (after init [Recv 1024])).
    rewrite E in Hrec. exact Hrec.
  - destruct (parsed text) as [e0|[[[method path] version] headers]].
    + destruct (closing _) as [r s] eqn:E.
      specialize (Hrec e0 (after init (Recv 1024 :: parse_output text))).
      rewrite E in Hrec. exact Hrec.
    + destruct (str_eqb path (lit "/")); [discriminate|].
      destruct (serve_static_file _ h c _) as [[e0|u] s0]; [|discriminate].
      destruct (closing _) as [r s] eqn:E. specialize (Hrec e0 s0).
      rewrite E in Hrec. exact Hrec.
Qed.

(** With a working socket, every request except a well-formed one for ["/"]
    is answered exactly once and the handler returns. *)
Lemma answered_once (h : host) (c : client) :
  (forall n, send_fault c n = None) ->
  (forall text method version headers,
      request_text c = inr text ->
      parsed text <> inr (method, lit "/", version, headers)) ->
  fst (run_client h c) = inr tt
  /\ exists payload, sends (snd (run_client h c)) = [(payload, None)].
Proof.
  intros Hok Hroot. unfold run_client. rewrite handle_client_run.
  pose proof (fun text => proj1 (parse_output_quiet text)) as Hq.
  destruct (request_text c) as [e|text] eqn:Ht; cbn zeta.
  - unfold closing, recover, sent, after. cbn [fst snd events nsent init].
    rewrite !Hok. split; [reflexivity|]. eexists. reflexivity.
  - destruct (parsed text) as [e|[[[method path] version] headers]] eqn:Hp.
    + unfold closing, recover, sent, after. cbn [fst snd events nsent init].
      rewrite !Hok. split; [reflexivity|]. eexists.
      cbn [app sends]. rewrite !sends_app, Hq. reflexivity.
    + unfold str_eqb. destruct (list_eq_dec N.eq_dec path (lit "/")) as [->|_].
      * exfalso. exact (Hroot _ _ _ _ eq_refl Hp).
      * rewrite serve_static_file_run.
        pose proof (proj1 (static_attempt_quiet h (lstrip (lit "/") path))) as Hs.
        destruct (static_attempt h (lstrip (lit "/") path)) as [evs [e|response]];
          cbn [fst] in Hs;
          unfold closing, recover, sent, after; cbn [fst snd events nsent init];
          rewrite !Hok; cbn [fst snd events nsent outcome];
          (split; [reflexivity|]); eexists;
          cbn [app sends]; rewrite !sends_app, ?Hq, ?Hs; reflexivity.
Qed.

(** C2, as amended.  For every accepted connection the client socket is
    closed exactly once, as the last act of the handler, whether reading,
    parsing, routing or answering succeeded or not.  An exception raised
    while reading or parsing is caught in [handle_client] and answered with
    the 500 response.  When no [sendall] is faulted and the request is not a
    well-formed one for ["/"], exactly one response is sent and the handler
    returns; whenever the handler returns, the accept loop goes on with the
    next connection.  An exception leaves the handler only when the [sendall]
    of its own 500 response is faulted: it does so after the connection is
    closed and ends the accept loop, which prints the error and closes the
    listening socket without accepting any later connection. *)
Theorem connection_boundary (h : host) (c : client) (script : list accepted) :
  (exists before,
      snd (run_client h c) = before ++ [CloseClient] /\ closes before = 0)
  /\ (forall e printed,
        (request_text c = inl e /\ printed = [])
        \/ (exists text, request_text c = inr text /\ parsed text = inl e
                         /\ printed = parse_output text) ->
        run_client h c
        = (outcome (send_fault c 0),
           Recv 1024 :: printed
           ++ [Stdout (OutClientError e); SendAll response_500 (send_fault c 0);
               CloseClient]))
  /\ ((forall n, send_fault c n = None) ->
      (forall text method version headers,
          request_text c = inr text ->
          parsed text <> inr (method, lit "/", version, headers)) ->
      fst (run_client h c) = inr tt
      /\ exists payload, sends (snd (run_client h c)) = [(payload, None)])
  /\ (fst (run_client h c) = inr tt ->
      serve h (Connection c :: script)
      = Accept true :: snd (run_client h c) ++ serve h script)
  /\ (forall e, fst (run_client h c) = inl e ->
      (exists before,
          snd (run_client h c)
          = before ++ [SendAll response_500 (Some e); CloseClient])
      /\ serve h (Connection c :: script)
         = Accept true :: snd (run_client h c)
           ++ [Stdout (OutServerError e); CloseServer; Stdout OutServerClosed]).
Proof.
  split; [apply closed_once|].
  split; [intros e printed; apply rejected_request_run|].
  split; [apply answered_once|].
  split; [apply serve_next|].
  intros e He. split; [now apply raised_by_last_send|now apply serve_last].
Qed.

Lemma connection_boundary_witness :
  fst (run_client empty_host (peer (get_line "/x" ++ crlf))) = inr tt
  /\ serve empty_host [Connection (peer (get_line "/x" ++ crlf))]
     = Accept true :: snd (run_client empty_host (peer (get_line "/x" ++ crlf)))
       ++ serve empty_host []
  /\ fst (run_client empty_host (lost_peer (blit "junk"))) = inl ConnectionError
  /\ serve empty_host [Connection (lost_peer (blit "junk"))]
     = Accept true :: snd (run_client empty_host (lost_peer (blit "junk")))
       ++ [Stdout (OutServerError ConnectionError); CloseServer; Stdout OutServerClosed].
Proof.
  split; [reflexivity|]. split.
  - apply (connection_boundary empty_host (peer (get_line "/x" ++ crlf)) []).
    reflexivity.
  - split; [reflexivity|].
    apply (connection_boundary empty_host (lost_peer (blit "junk")) []).
    reflexivity.
Defined.

(** C2 as first stated fails: a peer that sends a malformed request and is
    gone before the answer makes the 500 [sendall] raise; the exception
    leaves [handle_client], the accept loop ends and the listening socket is
    closed, so the connection waiting behind it is never accepted, and the
    first peer has been sent no response. *)
Lemma connection_boundary_counterexample :
  serve empty_host
    [Connection (lost_peer (blit "junk")); Connection (peer (get_line "/x" ++ crlf))]
  = [Accept true;
     Recv 1024;
     Stdout (OutClientError ValueError);
     SendAll response_500 (Some ConnectionError);
     CloseClient;
     Stdout (OutServerError ConnectionError);
     CloseServer;
     Stdout OutServerClosed]
  /\ accepts (serve empty_host
                [Connection (lost_peer (blit "junk"));
                 Connection (peer (get_line "/x" ++ crlf))]) = 1
  /\ delivered (snd (run_client empty_host (lost_peer (blit "junk")))) = [].
Proof. repeat split; vm_compute; reflexivity. Qed.

(* ================================================================== *)
(** * More on cutting text *)
(* ================================================================== *)

Section Extending.

Variable sep : str.

Lemma strip_prefix_extend (s r t : str) :
  strip_prefix sep s = Some r -> strip_prefix sep (s ++ t) = Some (r ++ t).
Proof.
  intros H. apply strip_prefix_sound in H. subst s.
  rewrite <- app_assoc. apply strip_prefix_app.
Qed.

Lemma strip_prefix_mismatch (s t : str) :
  strip_prefix sep s = None -> List.length sep <= List.length s ->
  strip_prefix sep (s ++ t) = None.
Proof.
  revert s. induction sep as [|a p IH]; intros s H Hlen; [discriminate|].
  destruct s as [|c s]; [simpl in Hlen; lia|].
  cbn [app strip_prefix] in *.
  destruct (N.eqb a c); [|reflexivity].
  apply IH; [exact H|simpl in Hlen; lia].
Qed.

(** The leftmost occurrence stays the leftmost when text is appended. *)
Lemma find_sep_extend (s x r t : str) :
  find_sep sep s = Some (x, r) -> find_sep sep (s ++ t) = Some (x, r ++ t).
Proof.
  revert x r. induction s as [|c s IH]; intros x r H.
  - cbn [find_sep] in H. destruct (strip_prefix sep []) as [r0|] eqn:E; [|discriminate].
    injection H as <- <-. apply strip_prefix_sound in E.
    symmetry in E. apply app_eq_nil in E as [-> ->].
    cbn [app]. destruct t; reflexivity.
  - cbn [find_sep] in H. cbn [app find_sep].
    destruct (strip_prefix sep (c :: s)) as [r0|] eqn:E.
    + injection H as <- <-.
      pose proof (strip_prefix_extend (c :: s) r0 t E) as E'.
      cbn [app] in E'. now rewrite E'.
    + destruct (find_sep sep s) as [[x' r']|] eqn:F; [|discriminate].
      injection H as <- <-.
      assert (E' : strip_prefix sep ((c :: s) ++ t) = None).
      { apply strip_prefix_mismatch; [exact E|].
        apply find_sep_sound in F. subst s. cbn [List.length].
        rewrite !length_app. lia. }
      cbn [app] in E'. rewrite E'. now rewrite (IH _ _ eq_refl).
Qed.

End Extending.

Section TwoCharCut.

Variables a b : codepoint.
Hypothesis distinct : a <> b.

Lemma not_contained (l : str) : find_sep [a; b] l = None -> contains [a; b] l = false.
Proof. unfold contains. now intros ->. Qed.

(** Cutting a text that was joined with the separator. *)
Lemma split_app_sep (l r : str) :
  split [a; b] (l ++ [a; b] ++ r) = split [a; b] l ++ split [a; b] r.
Proof.
  remember (List.length l) as n eqn:Hn.
  assert (Hle : List.length l <= n) by lia. clear Hn.
  revert l Hle. induction n as [|n IH]; intros l Hle;
    rewrite (split_eq [a; b] (l ++ [a; b] ++ r)), (split_eq [a; b] l) by discriminate;
    destruct (find_sep [a; b] l) as [[x rest]|] eqn:F.
  - apply find_sep_shorter in F; [lia|discriminate].
  - now rewrite (find_sep_cut a b distinct l r (not_contained l F)).
  - rewrite (find_sep_extend [a; b] l x rest ([a; b] ++ r) F).
    cbn [app]. f_equal. apply IH.
    apply find_sep_shorter in F; [lia|discriminate].
  - now rewrite (find_sep_cut a b distinct l r (not_contained l F)).
Qed.

End TwoCharCut.

Section OneCharSeparator.

Variable a : codepoint.

Lemma find_sep1_cons (c : codepoint) (s : str) :
  find_sep [a] (c :: s)
  = if N.eqb a c then Some ([], s)
    else match find_sep [a] s with
         | Some (x, r) => Some (c :: x, r)
         | None => None
         end.
Proof. cbn [find_sep strip_prefix]. now destruct (N.eqb a c). Qed.

Lemma contains1_in (s : str) : contains [a] s = false <-> ~ In a s.
Proof.
  unfold contains. induction s as [|c s IH].
  - split; [intros _ []|reflexivity].
  - rewrite find_sep1_cons. destruct (N.eqb_spec a c) as [->|Hne].
    + split; [discriminate|]. intros H. exfalso. apply H. now left.
    + destruct (find_sep [a] s) as [[x r]|].
      * split; [discriminate|]. intros H. exfalso.
        destruct IH as [_ IH]. discriminate IH. intros Hin. apply H. now right.
      * split; [|reflexivity]. intros _ [E|Hin]; [congruence|].
        now apply (proj1 IH).
Qed.

Lemma find_sep1_cut (l r : str) :
  ~ In a l -> find_sep [a] (l ++ a :: r) = Some (l, r).
Proof.
  induction l as [|c l IH]; intros H; cbn [app]; rewrite find_sep1_cons.
  - now rewrite N.eqb_refl.
  - destruct (N.eqb_spec a c) as [->|_]; [exfalso; apply H; now left|].
    rewrite IH; [reflexivity|]. intros Hin. apply H. now right.
Qed.

Lemma find_sep1_clean (s x r : str) :
  find_sep [a] s = Some (x, r) -> ~ In a x.
Proof.
  revert x. induction s as [|c s IH]; intros x; [discriminate|].
  rewrite find_sep1_cons. destruct (N.eqb_spec a c) as [->|Hne].
  - intros [= <- <-] [].
  - destruct (find_sep [a] s) as [[x' r']|]; [|discriminate].
    intros [= <- <-] [E|Hin]; [congruence|]. now apply (IH x').
Qed.

End OneCharSeparator.

Lemma split_whole (sep s : str) :
  sep <> [] -> contains sep s = false -> split sep s = [s].
Proof.
  intros Hne H. rewrite split_eq by assumption. unfold contains in H.
  now destruct (find_sep sep s) as [[? ?]|].
Qed.

(* ================================================================== *)
(** * The content type resolver *)
(* ================================================================== *)









(* ================================================================== *)
(** * More on [parse_request] *)
(* ================================================================== *)

Lemma SP_eq : lit " " = [32%N].
Proof. reflexivity. Qed.

Lemma unpack3_ok (parts : list str) (m p v : str) :
  unpack3 parts = inr (m, p, v) <-> parts = [m; p; v].
Proof.
  split; [|now intros ->].
  destruct parts as [|x [|y [|z [|w parts]]]]; cbn; try discriminate.
  now intros [= -> -> ->].
Qed.

Lemma split_tokens (m p v : str) :
  contains (lit " ") m = false ->
  contains (lit " ") p = false ->
  contains (lit " ") v = false ->
  split (lit " ") (m ++ lit " " ++ p ++ lit " " ++ v) = [m; p; v].
Proof.
  rewrite SP_eq. intros Hm Hp Hv. cbn [app].
  rewrite split_eq, (find_sep1_cut 32%N m) by (discriminate || now apply contains1_in).
  rewrite split_eq, (find_sep1_cut 32%N p) by (discriminate || now apply contains1_in).
  now rewrite split_whole by (discriminate || assumption).
Qed.

(** X1. The request line is accepted exactly when it is three tokens joined
    by single spaces, none of the tokens holding a space; tokens may be
    empty. *)
Theorem request_line_tokens (line m p v : str) :
  unpack3 (split (lit " ") line) = inr (m, p, v)
  <-> line = m ++ lit " " ++ p ++ lit " " ++ v
      /\ contains (lit " ") m = false
      /\ contains (lit " ") p = false
      /\ contains (lit " ") v = false.
Proof.
  rewrite unpack3_ok. split.
  - rewrite SP_eq. intros H.
    rewrite split_eq in H by discriminate.
    destruct (find_sep [32%N] line) as [[x1 r1]|] eqn:F1; [|discriminate].
    injection H as -> H.
    rewrite split_eq in H by discriminate.
    destruct (find_sep [32%N] r1) as [[x2 r2]|] eqn:F2; [|discriminate].
    injection H as -> H.
    rewrite split_eq in H by discriminate.
    destruct (find_sep [32%N] r2) as [[x3 r3]|] eqn:F3.
    + injection H as _ H. now apply split_not_nil in H.
    + injection H as ->.
      pose proof (find_sep1_clean _ _ _ _ F1) as C1.
      pose proof (find_sep1_clean _ _ _ _ F2) as C2.
      apply find_sep_sound in F1, F2. subst line r1.
      repeat split; try (now apply contains1_in).
      unfold contains. now rewrite F3.
  - intros (-> & Hm & Hp & Hv). now apply split_tokens.
Qed.

Lemma request_line_tokens_witness :
  unpack3 (split (lit " ") (lit "  ")) = inr ([], [], [])
  /\ unpack3 (split (lit " ") (lit "GET /a b HTTP/1.1")) = inl ValueError.
Proof.
  split.
  - apply (proj2 (request_line_tokens (lit "  ") [] [] [])). repeat split.
  - reflexivity.
Defined.

Lemma parse_headers_raises (lines : list str) (acc : dict) (e : exn) :
  parse_headers lines acc = inl e ->
  e = ValueError
  /\ exists before line rest,
       lines = before ++ line :: rest
       /\ Forall (fun l => l <> []) before
       /\ line <> []
       /\ contains (lit ": ") line = false.
Proof.
  revert acc. induction lines as [|line lines IH]; intros acc; cbn [parse_headers];
    [discriminate|].
  destruct line as [|ch line]; [discriminate|].
  unfold split1, contains.
  destruct (find_sep (lit ": ") (ch :: line)) as [[name value]|] eqn:F.
  - intros H. destruct (IH _ H) as (-> & before & bad & rest & -> & Hb & Hl & Hc).
    split; [reflexivity|].
    exists ((ch :: line) :: before), bad, rest. repeat split; try assumption.
    constructor; [discriminate|assumption].
  - intros [= <-]. split; [reflexivity|].
    exists [], (ch :: line), lines. repeat split; [constructor|discriminate|].
    now rewrite F.
Qed.

(** X2. The parsing steps of [parse_request] raise nothing but [ValueError]:
    [split] never returns an empty list, so [lines[0]] exists even for the
    empty text; the unpacking of the request line raises only [ValueError];
    and the header loop raises, with [ValueError], exactly when a non-empty
    line before the first empty line has no [": "]. *)
Theorem parse_steps_raise_only_value_error :
  (forall text, split CRLF text <> [])
  /\ (forall parts e, unpack3 parts = inl e -> e = ValueError)
  /\ (forall lines acc e,
        parse_headers lines acc = inl e
        <-> e = ValueError
            /\ exists before line rest,
                 lines = before ++ line :: rest
                 /\ Forall (fun l => l <> []) before
                 /\ line <> []
                 /\ contains (lit ": ") line = false).
Proof.
  split; [intros text; apply split_not_nil|].
  split; [apply unpack3_raises|].
  intros lines acc e. split; [apply parse_headers_raises|].
  intros (-> & before & line & rest & -> & Hb & Hl & Hc).
  now apply parse_headers_bad.
Qed.

Lemma parse_steps_raise_only_value_error_witness :
  split CRLF [] = [[]]
  /\ unpack3 (split (lit " ") []) = inl ValueError
  /\ parse_headers [lit "Host: a"; lit "Accept */*"; []; lit "x"] empty = inl ValueError.
Proof.
  split; [reflexivity|]. split; [reflexivity|].
  apply (proj2 (proj2 (proj2 parse_steps_raise_only_value_error) _ empty ValueError)).
  split; [reflexivity|].
  exists [lit "Host: a"], (lit "Accept */*"), [[]; lit "x"].
  repeat split; [repeat constructor; discriminate|discriminate].
Defined.

Lemma split_header_block (headers : dict) (tail : str) :
  unambiguous headers ->
  split CRLF (header_lines headers ++ tail)
  = map bare_line headers ++ split CRLF tail.
Proof.
  rewrite header_lines_concat.
  induction 1 as [|entry headers (_ & Hn & Hv) _ IH]; [reflexivity|].
  cbn [map List.concat app]. rewrite header_line_bare, <- !app_assoc.
  rewrite split_eq by discriminate.
  unfold CRLF at 1 2.
  rewrite (find_sep_cut CR LF cr_not_lf) by now apply bare_line_no_crlf.
  now rewrite IH.
Qed.

Lemma request_line_no_crlf (m p v : str) :
  contains CRLF m = false -> contains CRLF p = false -> contains CRLF v = false ->
  contains CRLF (m ++ lit " " ++ p ++ lit " " ++ v) = false.
Proof.
  intros Hm Hp Hv. rewrite SP_eq. cbn [app].
  apply (contains_app CR LF); [discriminate|exact Hm|].
  apply (contains_skip CR LF); [discriminate|].
  apply (contains_app CR LF); [discriminate|exact Hp|].
  apply (contains_skip CR LF); [discriminate|exact Hv].
Qed.

(** X3. For a request written as a request line of three tokens free of
    spaces and line breaks, the header block of a mapping that the wire
    format can carry, a blank line and any body, the parsing steps of
    [parse_request] recover exactly the three tokens and the mapping: the
    first line is the request line, it unpacks into the tokens, and the
    header loop over the remaining lines gives the mapping. *)
Theorem request_round_trip (m p v : str) (headers : dict) (body : str) :
  contains (lit " ") m = false -> contains CRLF m = false ->
  contains (lit " ") p = false -> contains CRLF p = false ->
  contains (lit " ") v = false -> contains CRLF v = false ->
  wf headers -> unambiguous headers ->
  exists header_block,
    split CRLF ((m ++ lit " " ++ p ++ lit " " ++ v)
                ++ CRLF ++ header_lines headers ++ CRLF ++ body)
    = (m ++ lit " " ++ p ++ lit " " ++ v) :: header_block
    /\ unpack3 (split (lit " ") (m ++ lit " " ++ p ++ lit " " ++ v)) = inr (m, p, v)
    /\ parse_headers header_block empty = inr headers.
Proof.
  intros Hm Hm' Hp Hp' Hv Hv' Hd Hu.
  exists (map bare_line headers ++ [] :: split CRLF body). split; [|split].
  - rewrite split_eq by discriminate.
    change (CRLF ++ header_lines headers ++ CRLF ++ body)
      with ([CR; LF] ++ header_lines headers ++ CRLF ++ body).
    change (find_sep CRLF) with (find_sep [CR; LF]).
    rewrite (find_sep_cut CR LF cr_not_lf) by now apply request_line_no_crlf.
    rewrite (split_header_block _ _ Hu).
    change (CRLF ++ body) with ([] ++ [CR; LF] ++ body).
    change (split CRLF) with (split [CR; LF]).
    now rewrite (split_app_sep CR LF cr_not_lf).
  - now rewrite (split_tokens _ _ _ Hm Hp Hv).
  - now rewrite (parse_bare_lines headers ([] :: split CRLF body) empty Hu Hd).
Qed.

Lemma request_round_trip_witness :
  wf [(lit "Host", lit "example.org:80"); (lit "X", [])]
  /\ unambiguous [(lit "Host", lit "example.org:80"); (lit "X", [])]
  /\ exists header_block,
       split CRLF ((lit "POST" ++ lit " " ++ lit "/form" ++ lit " " ++ lit "HTTP/1.0")
                   ++ CRLF
                   ++ header_lines [(lit "Host", lit "example.org:80"); (lit "X", [])]
                   ++ CRLF ++ lit "a: b")
       = (lit "POST" ++ lit " " ++ lit "/form" ++ lit " " ++ lit "HTTP/1.0")
         :: header_block
       /\ unpack3 (split (lit " ")
                     (lit "POST" ++ lit " " ++ lit "/form" ++ lit " " ++ lit "HTTP/1.0"))
          = inr (lit "POST", lit "/form", lit "HTTP/1.0")
       /\ parse_headers header_block empty
          = inr [(lit "Host", lit "example.org:80"); (lit "X", [])].
Proof.
  assert (Hd : wf [(lit "Host", lit "example.org:80"); (lit "X", [])]).
  { unfold wf. cbn [map fst].
    repeat constructor; cbn [In]; intros H; repeat destruct H as [H|H];
      try discriminate H; exact H. }
  assert (Hu : unambiguous [(lit "Host", lit "example.org:80"); (lit "X", [])])
    by repeat constructor.
  split; [exact Hd|]. split; [exact Hu|].
  apply (request_round_trip (lit "POST") (lit "/form") (lit "HTTP/1.0")
           [(lit "Host", lit "example.org:80"); (lit "X", [])] (lit "a: b"));
    solve [reflexivity | exact Hd | exact Hu].
Defined.

Lemma parse_headers_stop (block rest : list str) (acc : dict) :
  parse_headers (block ++ [] :: rest) acc = parse_headers (block ++ [[]]) acc.
Proof.
  revert acc. induction block as [|line block IH]; intros acc; [reflexivity|].
  cbn [app parse_headers]. destruct line as [|ch line]; [reflexivity|].
  destruct (split1 (lit ": ") (ch :: line)) as [|x [|y [|z l]]]; try reflexivity.
  apply IH.
Qed.

(** X4. Whatever follows the first blank line of a request (its body) has
    no influence on what [parse_request] returns, raises or prints. *)
Theorem request_body_ignored
    (head body : str) (h : host) (c : client) (s : state) :
  parse_request (head ++ CRLF ++ CRLF ++ body) h c s
  = parse_request (head ++ CRLF ++ CRLF) h c s.
Proof.
  rewrite !parse_request_run.
  assert (Hsplit : forall tail,
             split CRLF (head ++ CRLF ++ CRLF ++ tail)
             = split CRLF head ++ [] :: split CRLF tail).
  { intros tail. unfold CRLF at 2.
    rewrite (split_app_sep CR LF cr_not_lf). f_equal.
    change (CRLF ++ tail) with ([] ++ [CR; LF] ++ tail).
    now rewrite (split_app_sep CR LF cr_not_lf). }
  unfold parsed, parse_output.
  rewrite (Hsplit body). replace (head ++ CRLF ++ CRLF) with (head ++ CRLF ++ CRLF ++ [])
    by now rewrite app_nil_r.
  rewrite (Hsplit []).
  destruct (split CRLF head) as [|request_line block]; cbn [app].
  - reflexivity.
  - now rewrite (parse_headers_stop block (split CRLF body)),
                (parse_headers_stop block (split CRLF [])).
Qed.

(* ================================================================== *)
(** * Repeated header names *)
(* ================================================================== *)

Lemma str_eqb_true (a b : str) : str_eqb a b = true <-> a = b.
Proof.
  unfold str_eqb. destruct (list_eq_dec N.eq_dec a b); split; congruence.
Qed.

Lemma set_keys (k v : str) (d : dict) :
  (In k (map fst d) /\ map fst (set k v d) = map fst d)
  \/ (~ In k (map fst d) /\ set k v d = d ++ [(k, v)]).
Proof.
  induction d as [|[k0 v0] d IH]; [right; split; [intros []|reflexivity]|].
  cbn [set map fst]. destruct (str_eqb k0 k) eqn:E.
  - apply str_eqb_true in E. subst k0. left. split; [now left|reflexivity].
  - assert (Hne : k0 <> k) by (intros ->; now rewrite (proj2 (str_eqb_true k k)) in E).
    destruct IH as [[Hin Hk]|[Hnin Hs]].
    + left. split; [now right|]. cbn [map fst]. now rewrite Hk.
    + right. split; [|cbn [app]; now rewrite Hs].
      intros [Heq|Hin]; [congruence|contradiction].
Qed.

Lemma wf_set (k v : str) (d : dict) : wf d -> wf (set k v d).
Proof.
  unfold wf. intros Hd. destruct (set_keys k v d) as [[_ ->]|[Hnin ->]]; [exact Hd|].
  rewrite map_app. cbn [map fst]. apply NoDup_app; [exact Hd|repeat constructor; intros []|].
  intros x Hx [<-|[]]. contradiction.
Qed.

Lemma in_set (k v k' v' : str) (d : dict) :
  wf d ->
  In (k, v) (set k' v' d) <-> (k = k' /\ v = v') \/ (k <> k' /\ In (k, v) d).
Proof.
  unfold wf. induction d as [|[k0 v0] d IH]; intros Hd.
  - cbn [set In]. split.
    + intros [[= -> ->]|[]]. now left.
    + intros [[-> ->]|[_ []]]. now left.
  - cbn [map fst] in Hd. apply NoDup_cons_iff in Hd as [Hk0 Hd]. specialize (IH Hd).
    cbn [set]. destruct (str_eqb k0 k') eqn:E.
    + apply str_eqb_true in E. subst k0. cbn [In]. split.
      * intros [[= -> ->]|Hin]; [now left|]. right. split; [|now right].
        intros ->. apply Hk0. now apply (in_map fst) in Hin.
      * intros [[-> ->]|[Hne [[= -> ->]|Hin]]]; [now left|congruence|now right].
    + assert (Hne : k0 <> k') by (intros ->; now rewrite (proj2 (str_eqb_true k' k')) in E).
      cbn [In]. rewrite IH. split.
      * intros [[= -> ->]|[H|H]]; [right; split; [congruence|now left]|now left|].
        right. split; [tauto|now right].
      * intros [H|[Hk [H|H]]]; [right; now left|now left|right; right; tauto].
Qed.

Lemma assign_all_snoc (entries : list (str * str)) (entry : str * str) (d : dict) :
  assign_all (entries ++ [entry]) d
  = set (fst entry) (snd entry) (assign_all entries d).
Proof. unfold assign_all. now rewrite fold_left_app. Qed.

Lemma wf_assign_all (entries : list (str * str)) (d : dict) :
  wf d -> wf (assign_all entries d).
Proof.
  revert d. induction entries as [|e entries IH]; intros d Hd; [exact Hd|].
  cbn [assign_all fold_left]. apply IH. now apply wf_set.
Qed.

Lemma in_assign_all (entries : list (str * str)) (k v : str) :
  In (k, v) (assign_all entries empty)
  <-> exists before later,
        entries = before ++ (k, v) :: later /\ ~ In k (map fst later).
Proof.
  induction entries as [|[k' v'] entries IH] using rev_ind.
  - split; [intros []|]. intros (before & later & H & _).
    now destruct before.
  - rewrite assign_all_snoc. cbn [fst snd].
    rewrite in_set by (apply wf_assign_all; constructor). rewrite IH. split.
    + intros [[-> ->]|[Hne (before & later & -> & Hl)]].
      * exists entries, []. split; [reflexivity|intros []].
      * exists before, (later ++ [(k', v')]). split; [now rewrite <- app_assoc|].
        rewrite map_app. cbn [map fst]. intros Hin.
        apply in_app_or in Hin as [Hin|[Heq|[]]]; [contradiction|congruence].
    + intros (before & later & Heq & Hl).
      destruct later as [|x later _] using rev_ind.
      * apply app_inj_tail in Heq as [_ [= -> ->]]. now left.
      * right. change (before ++ (k, v) :: later ++ [x])
          with (before ++ ((k, v) :: later) ++ [x]) in Heq.
        rewrite app_assoc in Heq. apply app_inj_tail in Heq as [-> <-].
        rewrite map_app in Hl. cbn [map fst] in Hl. split.
        -- intros ->. apply Hl, in_or_app. right. now left.
        -- exists before, later. split; [reflexivity|].
           intros Hin. apply Hl, in_or_app. now left.
Qed.

Lemma parse_assign (entries : list (str * str)) (rest : list str) (acc : dict) :
  Forall (fun entry => contains (lit ": ") (fst entry) = false) entries ->
  parse_headers (map bare_line entries ++ [] :: rest) acc
  = inr (assign_all entries acc).
Proof.
  intros H. revert acc. induction H as [|entry entries Hc _ IH]; intros acc.
  - reflexivity.
  - cbn [map app parse_headers].
    destruct (bare_line entry) as [|ch line] eqn:E;
      [now apply bare_line_not_nil in E|].
    rewrite <- E, (split1_bare_line _ Hc). apply IH.
Qed.

(** X5. When header names repeat, the header loop keeps one entry per name:
    the mapping it returns has pairwise distinct names, and it holds the
    pair of a name and a value exactly when the last header line with that
    name carries that value. *)
Theorem repeated_headers (entries : list (str * str)) (rest : list str) :
  Forall (fun entry => contains (lit ": ") (fst entry) = false) entries ->
  exists headers,
    parse_headers (map bare_line entries ++ [] :: rest) empty = inr headers
    /\ wf headers
    /\ forall k v,
         In (k, v) headers
         <-> exists before later,
               entries = before ++ (k, v) :: later /\ ~ In k (map fst later).
Proof.
  intros H. exists (assign_all entries empty). split; [now apply parse_assign|].
  split; [apply wf_assign_all; constructor|]. intros k v. apply in_assign_all.
Qed.

Lemma repeated_headers_witness :
  Forall (fun entry => contains (lit ": ") (fst entry) = false)
         [(lit "A", lit "1"); (lit "B", lit "2"); (lit "A", lit "3")]
  /\ parse_headers [lit "A: 1"; lit "B: 2"; lit "A: 3"; []] empty
     = inr [(lit "A", lit "3"); (lit "B", lit "2")]
  /\ exists headers,
       parse_headers
         (map bare_line [(lit "A", lit "1"); (lit "B", lit "2"); (lit "A", lit "3")]
          ++ [] :: [])
         empty
       = inr headers
       /\ wf headers.
Proof.
  assert (H : Forall (fun entry => contains (lit ": ") (fst entry) = false)
                     [(lit "A", lit "1"); (lit "B", lit "2"); (lit "A", lit "3")])
    by repeat constructor.
  split; [exact H|]. split; [reflexivity|].
  destruct (repeated_headers _ [] H) as (headers & Hp & Hw & _).
  exists headers. now split.
Defined.

(* ================================================================== *)
(** * When the serializer raises *)
(* ================================================================== *)

Lemma encode_codepoint_spec (c : codepoint) :
  match encode_codepoint c with
  | Some _ => encodable c = true
  | None => encodable c = false
  end.
Proof.
  unfold encode_codepoint, encodable.
  destruct (N.ltb_spec c 0x80); [destruct (N.ltb_spec c 0xD800); [reflexivity|lia]|].
  destruct (N.ltb_spec c 0x800); [destruct (N.ltb_spec c 0xD800); [reflexivity|lia]|].
  destruct (N.ltb_spec c 0x10000).
  - destruct (N.leb_spec 0xD800 c), (N.leb_spec c 0xDFFF); cbn [andb];
      destruct (N.ltb_spec c 0xD800), (N.ltb_spec 0xDFFF c), (N.ltb_spec c 0x110000);
      cbn [andb orb]; try reflexivity; lia.
  - destruct (N.ltb_spec c 0x110000);
      destruct (N.ltb_spec c 0xD800), (N.ltb_spec 0xDFFF c);
      cbn [andb orb]; try reflexivity; lia.
Qed.

Lemma encode_utf8_spec (s : str) :
  match encode_utf8 s with
  | Some _ => forallb encodable s = true
  | None => forallb encodable s = false
  end.
Proof.
  induction s as [|c s IH]; [reflexivity|].
  cbn [encode_utf8 forallb]. pose proof (encode_codepoint_spec c) as Hc.
  destruct (encode_codepoint c); rewrite Hc; [|reflexivity].
  now destruct (encode_utf8 s).
Qed.

Lemma encodable_literal (s : str) (b : bytes) :
  encode_utf8 s = Some b -> forallb encodable s = true.
Proof. intros H. pose proof (encode_utf8_spec s) as Hs. now rewrite H in Hs. Qed.

Lemma encodable_header_lines (headers : dict) :
  forallb encodable (header_lines headers)
  = forallb (fun entry => forallb encodable (fst entry) && forallb encodable (snd entry))
            headers.
Proof.
  rewrite header_lines_concat.
  induction headers as [|[name value] headers IH]; [reflexivity|].
  cbn [map List.concat forallb fst snd]. rewrite forallb_app, IH.
  unfold header_line at 1. cbn [fst snd]. rewrite !forallb_app.
  change (forallb encodable (lit ": ")) with true.
  change (forallb encodable CRLF) with true.
  now rewrite !andb_true_r.
Qed.

(** X6. [generate_response] raises exactly when the body or the name or
    value of a header holds a code point UTF-8 cannot encode (a surrogate);
    the exception is then [UnicodeEncodeError], whatever the status code. *)
Theorem serializer_raises_iff (status_code : Z) (headers : dict) (body : str) :
  (forall e, generate_response status_code headers body = inl e ->
             e = UnicodeEncodeError)
  /\ (generate_response status_code headers body = inl UnicodeEncodeError
      <-> forallb (fun entry => forallb encodable (fst entry)
                                && forallb encodable (snd entry)) headers
          && forallb encodable body = false).
Proof.
  unfold generate_response.
  pose proof (encode_utf8_spec (response_text status_code headers body)) as Hs.
  assert (Ht : forallb encodable (response_text status_code headers body)
               = forallb (fun entry => forallb encodable (fst entry)
                                       && forallb encodable (snd entry)) headers
                 && forallb encodable body).
  { unfold response_text. rewrite !forallb_app, encodable_header_lines.
    rewrite (encodable_literal _ _ (encode_str_of_int status_code)).
    rewrite get_status_spec,
      (encodable_literal _ _ (encode_lit _ (spec_reason_ascii status_code))).
    change (forallb encodable (lit "HTTP/1.1 ")) with true.
    change (forallb encodable (lit " ")) with true.
    change (forallb encodable CRLF) with true.
    cbn [andb]. reflexivity. }
  rewrite <- Ht.
  destruct (encode_utf8 (response_text status_code headers body)); rewrite Hs.
  - split; [discriminate|]. split; discriminate.
  - split; [now intros e [= <-]|]. split; reflexivity.
Qed.

(* ================================================================== *)
(** * The response for a regular file *)
(* ================================================================== *)







(* ================================================================== *)
(** * What a connection depends on *)
(* ================================================================== *)

Lemma recover_ext (c1 c2 : client) (label : exn -> output) (e : exn) (s : state) :
  (forall n, send_fault c1 n = send_fault c2 n) ->
  recover c1 label e s = recover c2 label e s.
Proof. intros H. unfold recover, sent. cbn [nsent after]. now rewrite H. Qed.

Lemma serve_static_file_ext (c1 c2 : client) (path : str) (h : host) (s : state) :
  (forall n, send_fault c1 n = send_fault c2 n) ->
  serve_static_file path h c1 s = serve_static_file path h c2 s.
Proof.
  intros H. rewrite !serve_static_file_run.
  destruct (static_attempt h path) as [evs [e|response]].
  - now apply recover_ext.
  - rewrite H. destruct (send_fault c2 (nsent s)).
    + rewrite (recover_ext c1 c2) by exact H. unfold sent. now rewrite H.
    + unfold sent. now rewrite H.
Qed.

Lemma handle_client_ext (c1 c2 : client) (h : host) (s : state) :
  request_text c1 = request_text c2 ->
  (forall n, send_fault c1 n = send_fault c2 n) ->
  handle_client h c1 s = handle_client h c2 s.
Proof.
  intros Hreq H. rewrite !handle_client_run, Hreq.
  destruct (request_text c2) as [e|text]; cbn zeta;
    [now rewrite (recover_ext c1 c2) by exact H|].
  destruct (parsed text) as [e|[[[method path] version] headers]];
    [now rewrite (recover_ext c1 c2) by exact H|].
  destruct (str_eqb path (lit "/")); [reflexivity|].
  rewrite (serve_static_file_ext c1 c2) by exact H.
  destruct (serve_static_file _ h c2 _) as [[e|u] s2]; [|reflexivity].
  now rewrite (recover_ext c1 c2) by exact H.
Qed.

(** X8. Only the first 1024 octets that a peer delivers count: two peers
    whose data agree on them, with sockets that fail alike, are handled with
    the same events and the same outcome. *)
Theorem only_first_1024_octets (h : host) (faults : nat -> option exn)
    (data1 data2 : bytes) :
  firstn 1024 data1 = firstn 1024 data2 ->
  run_client h (caller data1 faults) = run_client h (caller data2 faults).
Proof.
  intros H. unfold run_client.
  rewrite (handle_client_ext (caller data1 faults) (caller data2 faults));
    [reflexivity| |reflexivity].
  unfold request_text, caller. cbn [incoming]. now rewrite H.
Qed.

Lemma only_first_1024_octets_witness :
  firstn 1024 (get_line "/" ++ crlf ++ repeat x41 1006 ++ blit "tail one")
  = firstn 1024 (get_line "/" ++ crlf ++ repeat x41 1006 ++ blit "another tail")
  /\ run_client empty_host
       (caller (get_line "/" ++ crlf ++ repeat x41 1006 ++ blit "tail one")
               (fun _ => None))
     = run_client empty_host
         (caller (get_line "/" ++ crlf ++ repeat x41 1006 ++ blit "another tail")
                 (fun _ => None)).
Proof.
  assert (H : firstn 1024 (get_line "/" ++ crlf ++ repeat x41 1006 ++ blit "tail one")
              = firstn 1024 (get_line "/" ++ crlf ++ repeat x41 1006
                             ++ blit "another tail"))
    by (vm_compute; reflexivity).
  split; [exact H|].
  exact (only_first_1024_octets empty_host (fun _ => None) _ _ H).
Defined.

(** [serve_static_file] does not look at what happened before it. *)
Lemma serve_static_file_frame (path : str) (h : host) (c : client) (s : state) :
  serve_static_file path h c s
  = (fst (serve_static_file path h c {| events := []; nsent := nsent s |}),
     {| events :=
          events s
          ++ events (snd (serve_static_file path h c {| events := []; nsent := nsent s |}));
        nsent := nsent (snd (serve_static_file path h c {| events := []; nsent := nsent s |}))
     |}).
Proof.
  rewrite !serve_static_file_run.
  destruct (static_attempt h path) as [evs [e|response]];
    unfold recover, sent, after; cbn [fst snd events nsent];
    repeat (match goal with
            | |- context [ send_fault c ?n ] => destruct (send_fault c n)
            end; cbn [fst snd events nsent outcome]);
    rewrite <- ?app_assoc; reflexivity.
Qed.

(** X9. The answer depends on the path alone: two requests that parse to
    the same path, whatever their methods, versions and headers, are given
    the same responses in the same order, with the same outcome of the
    handler, by a host and over sockets that behave alike. *)
Theorem answer_depends_on_path_only
    (h : host) (faults : nat -> option exn) (data1 data2 : bytes)
    (text1 text2 method1 method2 path version1 version2 : str)
    (headers1 headers2 : dict) :
  request_text (caller data1 faults) = inr text1 ->
  parsed text1 = inr (method1, path, version1, headers1) ->
  request_text (caller data2 faults) = inr text2 ->
  parsed text2 = inr (method2, path, version2, headers2) ->
  fst (run_client h (caller data1 faults)) = fst (run_client h (caller data2 faults))
  /\ sends (snd (run_client h (caller data1 faults)))
     = sends (snd (run_client h (caller data2 faults))).
Proof.
  intros Ht1 Hp1 Ht2 Hp2. unfold run_client.
  rewrite !handle_client_run, Ht1, Ht2. cbn zeta. rewrite Hp1, Hp2.
  pose proof (fun text => proj1 (parse_output_quiet text)) as Hq.
  destruct (str_eqb path (lit "/")).
  - cbn [after init events fst snd app sends]. rewrite !sends_app, !Hq. now split.
  - rewrite (serve_static_file_frame _ h (caller data1 faults)),
            (serve_static_file_frame _ h (caller data2 faults)).
    cbn [after init nsent events app].
    rewrite (serve_static_file_ext (caller data1 faults) (caller data2 faults))
      by reflexivity.
    destruct (serve_static_file _ h (caller data2 faults) _) as [[e|u] s0];
      cbn [fst snd]; unfold closing, recover, sent, after;
      cbn [fst snd events nsent caller send_fault app sends];
      rewrite !sends_app, !Hq; cbn [app sends]; now split.
Qed.

Lemma answer_depends_on_path_only_witness :
  fst (run_client (host_with (lit "notes.txt") (Regular (blit "hi")))
         (caller (get_line "/notes.txt" ++ crlf) (fun _ => None)))
  = fst (run_client (host_with (lit "notes.txt") (Regular (blit "hi")))
           (caller (blit "DELETE /notes.txt FTP/9" ++ crlf ++ blit "A: b" ++ crlf ++ crlf)
                   (fun _ => None)))
  /\ sends (snd (run_client (host_with (lit "notes.txt") (Regular (blit "hi")))
                   (caller (get_line "/notes.txt" ++ crlf) (fun _ => None))))
     = sends (snd (run_client (host_with (lit "notes.txt") (Regular (blit "hi")))
                     (caller (blit "DELETE /notes.txt FTP/9" ++ crlf ++ blit "A: b"
                              ++ crlf ++ crlf)
                             (fun _ => None)))).
Proof.
  apply (answer_depends_on_path_only
           (host_with (lit "notes.txt") (Regular (blit "hi"))) (fun _ => None)
           (get_line "/notes.txt" ++ crlf)
           (blit "DELETE /notes.txt FTP/9" ++ crlf ++ blit "A: b" ++ crlf ++ crlf)
           (lit "GET /notes.txt HTTP/1.1" ++ CRLF ++ CRLF)
           (lit "DELETE /notes.txt FTP/9" ++ CRLF ++ lit "A: b" ++ CRLF ++ CRLF)
           (lit "GET") (lit "DELETE") (lit "/notes.txt") (lit "HTTP/1.1") (lit "FTP/9")
           [] [(lit "A", lit "b")]);
    reflexivity.
Defined.

(* ================================================================== *)
(** * How many responses *)
(* ================================================================== *)

(** X10. Per connection [sendall] is called at most three times and
    succeeds at most once; when an exception leaves the handler, no call
    has succeeded. *)
Theorem at_most_one_response (h : host) (c : client) :
  List.length (sends (snd (run_client h c))) <= 3
  /\ List.length (delivered (snd (run_client h c))) <= 1
  /\ (forall e, fst (run_client h c) = inl e ->
      delivered (snd (run_client h c)) = []).
Proof.
  unfold run_client. rewrite handle_client_run.
  pose proof (fun text => proj1 (parse_output_quiet text)) as Hq.
  pose proof (fun text => silent_delivers_nothing _ (Hq text)) as Hd.
  destruct (request_text c) as [e|text]; cbn zeta.
  - unfold closing, recover, sent, after. cbn [fst snd events nsent init app].
    destruct (send_fault c 0); cbn [sends delivered List.length outcome];
      repeat split; try lia; congruence.
  - destruct (parsed text) as [e|[[[method path] version] headers]].
    + unfold closing, recover, sent, after. cbn [fst snd events nsent init app].
      destruct (send_fault c 0);
        cbn [sends delivered]; rewrite !sends_app, !delivered_app, Hq, Hd;
        cbn [app sends delivered List.length outcome];
        repeat split; try lia; congruence.
    + destruct (str_eqb path (lit "/")).
      * unfold after. cbn [fst snd events init app sends delivered].
        rewrite !sends_app, !delivered_app, Hq, Hd. cbn.
        repeat split; try lia; congruence.
      * rewrite serve_static_file_run.
        pose proof (proj1 (static_attempt_quiet h (lstrip (lit "/") path))) as Hs.
        destruct (static_attempt h (lstrip (lit "/") path)) as [evs [e|response]];
          cbn [fst] in Hs;
          pose proof (silent_delivers_nothing _ Hs) as Hs';
          unfold closing, recover, sent, after; cbn [fst snd events nsent init];
          repeat (match goal with
                  | |- context [ send_fault c ?n ] => destruct (send_fault c n)
                  end; cbn [fst snd events nsent outcome]);
          cbn [app sends delivered];
          rewrite !sends_app, !delivered_app, ?Hq, ?Hd, ?Hs, ?Hs';
          cbn [app sends delivered List.length];
          repeat split; try lia; congruence.
Qed.

(* ================================================================== *)
(** * The order of events of a whole run *)
(* ================================================================== *)

Lemma prints_inner (f : str * str -> output) (l : list (str * str)) :
  forallb inner (map (fun entry => Stdout (f entry)) l) = true.
Proof. induction l as [|e l IH]; [reflexivity|exact IH]. Qed.

Lemma parse_output_inner (text : str) : forallb inner (parse_output text) = true.
Proof.
  unfold parse_output.
  destruct (split CRLF text) as [|request_line header_block]; [reflexivity|].
  destruct (unpack3 _) as [e|[[method path] version]]; [reflexivity|].
  destruct (parse_headers _ _) as [e|headers]; [reflexivity|].
  cbn [forallb inner andb]. apply prints_inner.
Qed.

Lemma static_attempt_inner (h : host) (path : str) :
  forallb inner (fst (static_attempt h path)) = true.
Proof. unfold static_attempt. now destruct (fs h path). Qed.

(** Before closing the client socket the handler only reads, looks at the
    filesystem, sends and prints. *)
Lemma handler_events (h : host) (c : client) :
  exists before,
    snd (run_client h c) = before ++ [CloseClient] /\ forallb inner before = true.
Proof.
  unfold run_client. rewrite handle_client_run.
  pose proof parse_output_inner as Hq.
  destruct (request_text c) as [e|text]; cbn zeta.
  - unfold closing, recover, sent, after. cbn [fst snd events nsent init].
    eexists. split; reflexivity.
  - destruct (parsed text) as [e|[[[method path] version] headers]].
    + unfold closing, recover, sent, after. cbn [fst snd events nsent init].
      eexists. split; [reflexivity|].
      cbn [app forallb inner andb]. rewrite !forallb_app, Hq. reflexivity.
    + destruct (str_eqb path (lit "/")).
      * unfold after. cbn [snd events init]. eexists. split; [reflexivity|].
        cbn [app forallb inner andb]. apply Hq.
      * rewrite serve_static_file_run.
        pose proof (static_attempt_inner h (lstrip (lit "/") path)) as Hs.
        destruct (static_attempt h (lstrip (lit "/") path)) as [evs [e|response]];
          cbn [fst] in Hs;
          unfold closing, recover, sent, after; cbn [fst snd events nsent init];
          repeat (match goal with
                  | |- context [ send_fault c ?n ] => destruct (send_fault c n)
                  end; cbn [fst snd events nsent outcome]);
          (eexists; split; [reflexivity|]);
          cbn [app forallb inner andb]; rewrite !forallb_app, ?Hq, ?Hs; reflexivity.
Qed.

Lemma orderly_inner (before rest : list event) :
  forallb inner before = true ->
  orderly Serving (before ++ CloseClient :: rest) = orderly Listening rest.
Proof.
  induction before as [|e before IH]; [reflexivity|].
  cbn [forallb]. intros H. apply andb_true_iff in H as [He Hb].
  destruct e as [o|n|p|p|payload fault| |ok|]; try discriminate He;
    cbn [app orderly]; now apply IH.
Qed.

Lemma orderly_accept_loop (h : host) (script : list accepted) (rest : list event) :
  orderly Listening (fst (accept_loop h script) ++ rest) = orderly Listening rest.
Proof.
  induction script as [|[c|e] script IH]; cbn [accept_loop]; [reflexivity| |reflexivity].
  destruct (handler_events h c) as (before & Hev & Hin). unfold run_client in Hev.
  destruct (handle_client h c init) as [[e|u] s]; cbn [snd] in Hev.
  - cbn [fst app orderly]. rewrite Hev, <- app_assoc. cbn [app].
    now rewrite orderly_inner.
  - destruct (accept_loop h script) as [evs why]. cbn [fst] in *.
    cbn [app orderly]. rewrite Hev, <- !app_assoc. cbn [app].
    now rewrite orderly_inner.
Qed.

(** X11. Every run of the server is orderly: connections are accepted one at
    a time, every [recv], [sendall] and filesystem call falls between an
    [accept] and the [close] of that client socket, each client socket is
    closed before the next [accept], and the run ends with the listening
    socket closed once, while no client is open, followed only by the
    closing line. *)
Theorem serve_orderly (h : host) (script : list accepted) :
  orderly Listening (serve h script) = true
  /\ exists before,
       serve h script = before ++ [CloseServer; Stdout OutServerClosed].
Proof.
  unfold serve. pose proof (orderly_accept_loop h script) as H.
  destruct (accept_loop h script) as [evs why]. cbn [fst] in H. split.
  - rewrite H. now destruct why.
  - exists (evs ++ match why with
                   | Raised e => [Stdout (OutServerError e)]
                   | Interrupted => []
                   end).
    now rewrite <- app_assoc.
Qed.

Lemma serve_accept_fails (h : host) (e : exn) (script : list accepted) :
  serve h (AcceptFails e :: script)
  = [Accept false; Stdout (OutServerError e); CloseServer; Stdout OutServerClosed].
Proof. reflexivity. Qed.

(** X12. Connections are served in the order they are accepted, each one
    whole before the next: while the handlers return, the trace of the run
    is the traces of the connections one after the other; a failing
    [accept] ends the run, and no connection queued behind it is touched. *)
Theorem serve_in_order (h : host) (clients : list client) (script : list accepted) :
  Forall (fun c => fst (run_client h c) = inr tt) clients ->
  serve h (map Connection clients ++ script)
  = flat_map (fun c => Accept true :: snd (run_client h c)) clients ++ serve h script
  /\ forall e,
       serve h (map Connection clients ++ AcceptFails e :: script)
       = flat_map (fun c => Accept true :: snd (run_client h c)) clients
         ++ [Accept false; Stdout (OutServerError e); CloseServer;
             Stdout OutServerClosed].
Proof.
  intros H.
  assert (Hgen : forall rest,
             serve h (map Connection clients ++ rest)
             = flat_map (fun c => Accept true :: snd (run_client h c)) clients
               ++ serve h rest).
  { intros rest. induction H as [|c clients Hc _ IH]; [reflexivity|].
    cbn [map app flat_map]. rewrite (serve_next h c _ Hc), IH.
    now rewrite <- app_assoc. }
  split; [apply Hgen|]. intros e. now rewrite Hgen, serve_accept_fails.
Qed.

Lemma serve_in_order_witness :
  Forall (fun c => fst (run_client empty_host c) = inr tt)
         [peer (get_line "/x" ++ crlf); peer (blit "junk")]
  /\ serve empty_host
       (map Connection [peer (get_line "/x" ++ crlf); peer (blit "junk")]
        ++ [AcceptFails OSError; Connection (peer [])])
     = flat_map (fun c => Accept true :: snd (run_client empty_host c))
                [peer (get_line "/x" ++ crlf); peer (blit "junk")]
       ++ [Accept false; Stdout (OutServerError OSError); CloseServer;
           Stdout OutServerClosed].
Proof.
  assert (H : Forall (fun c => fst (run_client empty_host c) = inr tt)
                     [peer (get_line "/x" ++ crlf); peer (blit "junk")])
    by (repeat constructor).
  split; [exact H|].
  exact (proj2 (serve_in_order empty_host _ [Connection (peer [])] H) OSError).
Defined.

(* ================================================================== *)
(** * UTF-8: reading back what was written *)
(* ================================================================== *)

Lemma below_by_cases (n : nat) (P : N -> bool) :
  forallb P (map N.of_nat (seq 0 n)) = true ->
  forall x, (x < N.of_nat n)%N -> P x = true.
Proof.
  intros H x Hx. rewrite forallb_forall in H. apply H.
  rewrite <- (N2Nat.id x). apply in_map, in_seq. lia.
Qed.

Lemma lor_low (a b k : N) :
  (b < 2 ^ k)%N -> N.lor (a * 2 ^ k) b = (a * 2 ^ k + b)%N.
Proof.
  intros H. rewrite N.add_nocarry_lxor, N.lxor_lor; try reflexivity.
  all: apply N.bits_inj; intros n; rewrite N.land_spec, N.bits_0;
    destruct (N.lt_ge_cases n k) as [L|G].
  all: try (rewrite N.mul_pow2_bits_low by exact L; reflexivity).
  all: replace (N.testbit b n) with false; [apply andb_false_r|].
  all: symmetry; destruct (N.eq_dec b 0) as [->|Hb]; [apply N.bits_0|];
       apply N.bits_above_log2; apply N.log2_lt_pow2 in H; lia.
Qed.

(** The octets the encoder writes, chunk by chunk. *)
Lemma single_spec (x : N) :
  (x < 128)%N -> Byte.to_N (octet x) = x.
Proof.
  intros H.
  apply (N.eqb_eq _ _).
  exact (below_by_cases 128 (fun x => N.eqb (Byte.to_N (octet x)) x) eq_refl x H).
Qed.

Lemma continuation_spec (x : N) :
  (x < 64)%N ->
  continuation (octet (N.lor 0x80 x)) = true
  /\ low6 (octet (N.lor 0x80 x)) = x
  /\ Byte.to_N (octet (N.lor 0x80 x)) = (128 + x)%N.
Proof.
  intros H.
  pose proof (below_by_cases 64
                (fun x => continuation (octet (N.lor 0x80 x))
                          && N.eqb (low6 (octet (N.lor 0x80 x))) x
                          && N.eqb (Byte.to_N (octet (N.lor 0x80 x))) (128 + x))
                eq_refl x H) as E.
  cbv beta in E. apply andb_true_iff in E as [E E3]. apply andb_true_iff in E as [E1 E2].
  apply N.eqb_eq in E2, E3. auto.
Qed.

Lemma lead2_spec (x : N) :
  (x < 32)%N ->
  Byte.to_N (octet (N.lor 0xC0 x)) = (192 + x)%N
  /\ N.land (192 + x) 0x1F = x.
Proof.
  intros H.
  pose proof (below_by_cases 32
                (fun x => N.eqb (Byte.to_N (octet (N.lor 0xC0 x))) (192 + x)
                          && N.eqb (N.land (192 + x) 0x1F) x)
                eq_refl x H) as E.
  cbv beta in E. apply andb_true_iff in E as [E1 E2].
  apply N.eqb_eq in E1, E2. auto.
Qed.

Lemma lead3_spec (x : N) :
  (x < 16)%N ->
  Byte.to_N (octet (N.lor 0xE0 x)) = (224 + x)%N
  /\ N.land (224 + x) 0x0F = x.
Proof.
  intros H.
  pose proof (below_by_cases 16
                (fun x => N.eqb (Byte.to_N (octet (N.lor 0xE0 x))) (224 + x)
                          && N.eqb (N.land (224 + x) 0x0F) x)
                eq_refl x H) as E.
  cbv beta in E. apply andb_true_iff in E as [E1 E2].
  apply N.eqb_eq in E1, E2. auto.
Qed.

Lemma lead4_spec (x : N) :
  (x < 8)%N ->
  Byte.to_N (octet (N.lor 0xF0 x)) = (240 + x)%N
  /\ N.land (240 + x) 0x07 = x.
Proof.
  intros H.
  pose proof (below_by_cases 8
                (fun x => N.eqb (Byte.to_N (octet (N.lor 0xF0 x))) (240 + x)
                          && N.eqb (N.land (240 + x) 0x07) x)
                eq_refl x H) as E.
  cbv beta in E. apply andb_true_iff in E as [E1 E2].
  apply N.eqb_eq in E1, E2. auto.
Qed.

Lemma chunk_bound (x : N) : (N.land x 0x3F < 64)%N.
Proof.
  change 0x3F%N with (N.ones 6). rewrite N.land_ones.
  apply N.mod_lt. discriminate.
Qed.

Lemma chunk_mod (x : N) : N.land x 0x3F = (x mod 64)%N.
Proof. change 0x3F%N with (N.ones 6). now rewrite N.land_ones. Qed.

Lemma decode2 (hi lo : N) (rest : bytes) :
  (2 <= hi < 32)%N -> (lo < 64)%N ->
  decode_utf8 (octet (N.lor 0xC0 hi) :: octet (N.lor 0x80 lo) :: rest)
  = option_map (cons (hi * 64 + lo)%N) (decode_utf8 rest).
Proof.
  intros Hhi Hlo. cbn [decode_utf8].
  destruct (lead2_spec hi (proj2 Hhi)) as [L1 L2].
  destruct (continuation_spec lo Hlo) as (C1 & C2 & _).
  rewrite L1, L2, C1, C2. unfold between.
  replace (192 + hi <? 128)%N with false by (symmetry; apply N.ltb_ge; lia).
  replace (194 <=? 192 + hi)%N with true by (symmetry; apply N.leb_le; lia).
  replace (192 + hi <=? 223)%N with true by (symmetry; apply N.leb_le; lia).
  cbn [andb]. rewrite N.shiftl_mul_pow2, (lor_low hi lo 6) by exact Hlo.
  reflexivity.
Qed.

Lemma decode3 (a x y : N) (rest : bytes) :
  (a < 16)%N -> (x < 64)%N -> (y < 64)%N ->
  (a = 0%N -> (32 <= x)%N) -> (a = 13%N -> (x < 32)%N) ->
  decode_utf8 (octet (N.lor 0xE0 a) :: octet (N.lor 0x80 x) :: octet (N.lor 0x80 y)
               :: rest)
  = option_map (cons (a * 4096 + x * 64 + y)%N) (decode_utf8 rest).
Proof.
  intros Ha Hx Hy Hlow Hhigh. cbn [decode_utf8].
  destruct (lead3_spec a Ha) as [L1 L2].
  destruct (continuation_spec x Hx) as (_ & X2 & X3).
  destruct (continuation_spec y Hy) as (Y1 & Y2 & _).
  rewrite L1, L2, X2, X3, Y1, Y2. unfold between.
  fails (224 + a <? 128)%N. fails (224 + a <=? 223)%N. rewrite andb_false_r.
  holds (224 <=? 224 + a)%N. holds (224 + a <=? 239)%N. cbn [andb].
  destruct (N.eqb_spec (224 + a) 224), (N.eqb_spec (224 + a) 237); try lia.
  all: match goal with
       | |- context [ (?lo <=? 128 + ?v)%N ] => holds (lo <=? 128 + v)%N
       end.
  all: match goal with
       | |- context [ (128 + ?v <=? ?hi)%N ] => holds (128 + v <=? hi)%N
       end.
  all: cbn [andb]; rewrite !N.shiftl_mul_pow2, (lor_low x y 6) by exact Hy;
    rewrite (lor_low a (x * 2 ^ 6 + y) 12)
      by (change (2 ^ 6)%N with 64%N; change (2 ^ 12)%N with 4096%N; lia);
    change (2 ^ 6)%N with 64%N; change (2 ^ 12)%N with 4096%N;
    now rewrite N.add_assoc.
Qed.

Lemma decode4 (a x y z : N) (rest : bytes) :
  (a <= 4)%N -> (x < 64)%N -> (y < 64)%N -> (z < 64)%N ->
  (a = 0%N -> (16 <= x)%N) -> (a = 4%N -> (x < 16)%N) ->
  decode_utf8 (octet (N.lor 0xF0 a) :: octet (N.lor 0x80 x) :: octet (N.lor 0x80 y)
               :: octet (N.lor 0x80 z) :: rest)
  = option_map (cons (a * 262144 + x * 4096 + y * 64 + z)%N) (decode_utf8 rest).
Proof.
  intros Ha Hx Hy Hz Hlow Hhigh. cbn [decode_utf8].
  assert (Ha' : (a < 8)%N) by lia.
  destruct (lead4_spec a Ha') as [L1 L2].
  destruct (continuation_spec x Hx) as (_ & X2 & X3).
  destruct (continuation_spec y Hy) as (Y1 & Y2 & _).
  destruct (continuation_spec z Hz) as (Z1 & Z2 & _).
  rewrite L1, L2, X2, X3, Y1, Y2, Z1, Z2. unfold between.
  fails (240 + a <? 128)%N. fails (240 + a <=? 223)%N. rewrite andb_false_r.
  fails (240 + a <=? 239)%N. rewrite andb_false_r.
  holds (240 <=? 240 + a)%N. holds (240 + a <=? 244)%N. cbn [andb].
  destruct (N.eqb_spec (240 + a) 240), (N.eqb_spec (240 + a) 244); try lia.
  all: match goal with
       | |- context [ (?lo <=? 128 + ?v)%N ] => holds (lo <=? 128 + v)%N
       end.
  all: match goal with
       | |- context [ (128 + ?v <=? ?hi)%N ] => holds (128 + v <=? hi)%N
       end.
  all: cbn [andb]; rewrite !N.shiftl_mul_pow2, (lor_low y z 6) by exact Hz;
    rewrite (lor_low x (y * 2 ^ 6 + z) 12)
      by (change (2 ^ 6)%N with 64%N; change (2 ^ 12)%N with 4096%N; lia);
    rewrite (lor_low a (x * 2 ^ 12 + (y * 2 ^ 6 + z)) 18)
      by (change (2 ^ 6)%N with 64%N; change (2 ^ 12)%N with 4096%N;
          change (2 ^ 18)%N with 262144%N; lia);
    change (2 ^ 6)%N with 64%N; change (2 ^ 12)%N with 4096%N;
    change (2 ^ 18)%N with 262144%N; now rewrite !N.add_assoc.
Qed.

Lemma decode_encoded (c : codepoint) (b rest : bytes) :
  encode_codepoint c = Some b ->
  decode_utf8 (b ++ rest) = option_map (cons c) (decode_utf8 rest).
Proof.
  unfold encode_codepoint.
  destruct (N.ltb_spec c 0x80) as [H1|H1].
  { intros E. assert (b = [octet c]) by congruence. subst b.
    cbn [app decode_utf8]. rewrite (single_spec c H1).
    now rewrite (proj2 (N.ltb_lt _ _) H1). }
  destruct (N.ltb_spec c 0x800) as [H2|H2].
  { intros E.
    assert (b = [octet (N.lor 0xC0 (N.shiftr c 6)); octet (N.lor 0x80 (N.land c 0x3F))])
      by congruence.
    subst b. cbn [app]. rewrite N.shiftr_div_pow2, chunk_mod.
    change (2 ^ 6)%N with 64%N. rewrite decode2 by nlia.
    f_equal. f_equal. nlia. }
  destruct (N.ltb_spec c 0x10000) as [H3|H3].
  { destruct (N.leb_spec 0xD800 c) as [S1|S1];
      [destruct (N.leb_spec c 0xDFFF) as [S2|S2]|]; cbn [andb]; [discriminate| |];
      intros E;
      assert (b = [octet (N.lor 0xE0 (N.shiftr c 12));
                   octet (N.lor 0x80 (N.land (N.shiftr c 6) 0x3F));
                   octet (N.lor 0x80 (N.land c 0x3F))]) by congruence;
      subst b; cbn [app]; rewrite !N.shiftr_div_pow2, !chunk_mod;
      change (2 ^ 6)%N with 64%N; change (2 ^ 12)%N with 4096%N;
      rewrite decode3 by nlia; f_equal; f_equal; nlia. }
  destruct (N.ltb_spec c 0x110000) as [H4|H4]; [|discriminate].
  intros E.
  assert (b = [octet (N.lor 0xF0 (N.shiftr c 18));
               octet (N.lor 0x80 (N.land (N.shiftr c 12) 0x3F));
               octet (N.lor 0x80 (N.land (N.shiftr c 6) 0x3F));
               octet (N.lor 0x80 (N.land c 0x3F))]) by congruence.
  subst b. cbn [app]. rewrite !N.shiftr_div_pow2, !chunk_mod.
  change (2 ^ 6)%N with 64%N. change (2 ^ 12)%N with 4096%N.
  change (2 ^ 18)%N with 262144%N.
  rewrite decode4 by nlia. f_equal. f_equal. nlia.
Qed.

(** X13. Text that [str.encode('utf-8')] accepts is read back unchanged by
    [bytes.decode('utf-8')]: the strict decoder undoes the encoder on every
    text without surrogates. *)
Theorem utf8_round_trip (s : str) (b : bytes) :
  encode_utf8 s = Some b -> decode_utf8 b = Some s.
Proof.
  revert b. induction s as [|c s IH]; intros b.
  - now intros [= <-].
  - cbn [encode_utf8].
    destruct (encode_codepoint c) as [bc|] eqn:Ec; [|discriminate].
    destruct (encode_utf8 s) as [bs|]; [|discriminate].
    intros E. assert (b = bc ++ bs) by congruence. subst b.
    now rewrite (decode_encoded c bc bs Ec), (IH bs eq_refl).
Qed.

Lemma utf8_round_trip_witness :
  encode_utf8 [104%N; 233%N; 8364%N; 128512%N]
  = Some [x68; xc3; xa9; xe2; x82; xac; xf0; x9f; x98; x80]
  /\ decode_utf8 [x68; xc3; xa9; xe2; x82; xac; xf0; x9f; x98; x80]
     = Some [104%N; 233%N; 8364%N; 128512%N].
Proof.
  assert (H : encode_utf8 [104%N; 233%N; 8364%N; 128512%N]
              = Some [x68; xc3; xa9; xe2; x82; xac; xf0; x9f; x98; x80])
    by reflexivity.
  split; [exact H|]. exact (utf8_round_trip _ _ H).
Defined.

(* ================================================================== *)
(** * Requests that are not UTF-8 *)
(* ================================================================== *)

Lemma stray_lead (b : byte) :
  stray b = true ->
  (Byte.to_N b <? 0x80)%N = false
  /\ between 0xC2 0xDF (Byte.to_N b) = false
  /\ between 0xE0 0xEF (Byte.to_N b) = false
  /\ between 0xF0 0xF4 (Byte.to_N b) = false.
Proof. destruct b; intros H; try discriminate H; repeat split. Qed.

Lemma stray_inside (b : byte) (lo hi : N) :
  (128 <= lo)%N -> (hi <= 191)%N ->
  between lo hi (Byte.to_N b) = true -> stray b = false.
Proof.
  unfold between, stray. intros Hlo Hhi H.
  apply andb_true_iff in H as [H1 H2]. apply N.leb_le in H1, H2.
  destruct (N.eqb_spec (Byte.to_N b) 0xC0); [lia|].
  destruct (N.eqb_spec (Byte.to_N b) 0xC1); [lia|].
  destruct (N.leb_spec 0xF5 (Byte.to_N b)); [lia|reflexivity].
Qed.

Lemma option_map_none {A B : Type} (f : A -> B) (o : option A) :
  o = None -> option_map f o = None.
Proof. now intros ->. Qed.

Lemma stray_not_decoded (b : bytes) :
  existsb stray b = true -> decode_utf8 b = None.
Proof.
  remember (List.length b) as n eqn:Hn.
  assert (Hle : List.length b <= n) by lia. clear Hn.
  revert b Hle. induction n as [|n IH]; intros b Hle H.
  { destruct b; [discriminate H|simpl in Hle; lia]. }
  destruct b as [|b0 r0]; [discriminate H|].
  cbn [existsb] in H. cbn [List.length] in Hle. cbn [decode_utf8].
  destruct (stray b0) eqn:S0.
  { destruct (stray_lead b0 S0) as (-> & -> & -> & ->). reflexivity. }
  cbn [orb] in H.
  destruct (Byte.to_N b0 <? 0x80)%N.
  { apply option_map_none, IH; [lia|exact H]. }
  destruct (between 0xC2 0xDF (Byte.to_N b0)).
  { destruct r0 as [|b1 r1]; [reflexivity|].
    destruct (continuation b1) eqn:C1; [|reflexivity].
    cbn [existsb] in H. rewrite (stray_inside b1 0x80 0xBF) in H by (lia || exact C1).
    apply option_map_none, IH; [cbn [List.length] in Hle; lia|exact H]. }
  destruct (between 0xE0 0xEF (Byte.to_N b0)).
  { destruct r0 as [|b1 [|b2 r2]]; try reflexivity.
    match goal with
    | |- context [ between ?lo ?hi (Byte.to_N b1) ] =>
        destruct (between lo hi (Byte.to_N b1)) eqn:C1; [|reflexivity];
        assert (S1 : stray b1 = false)
          by (apply (stray_inside b1 lo hi);
              [destruct (Byte.to_N b0 =? 0xE0)%N; lia
              |destruct (Byte.to_N b0 =? 0xED)%N; lia
              |exact C1])
    end.
    destruct (continuation b2) eqn:C2; [|reflexivity].
    cbn [existsb andb] in H.
    rewrite S1, (stray_inside b2 0x80 0xBF) in H by (lia || exact C2).
    apply option_map_none, IH; [cbn [List.length] in Hle; lia|exact H]. }
  destruct (between 0xF0 0xF4 (Byte.to_N b0)); [|reflexivity].
  destruct r0 as [|b1 [|b2 [|b3 r3]]]; try reflexivity.
  match goal with
  | |- context [ between ?lo ?hi (Byte.to_N b1) ] =>
      destruct (between lo hi (Byte.to_N b1)) eqn:C1; [|reflexivity];
      assert (S1 : stray b1 = false)
        by (apply (stray_inside b1 lo hi);
            [destruct (Byte.to_N b0 =? 0xF0)%N; lia
            |destruct (Byte.to_N b0 =? 0xF4)%N; lia
            |exact C1])
  end.
  destruct (continuation b2) eqn:C2; [|reflexivity].
  destruct (continuation b3) eqn:C3; [|reflexivity].
  cbn [existsb andb] in H.
  rewrite S1, (stray_inside b2 0x80 0xBF), (stray_inside b3 0x80 0xBF) in H
    by (lia || assumption).
  apply option_map_none, IH; [cbn [List.length] in Hle; lia|exact H].
Qed.

(** X14. A request with an octet [0xC0], [0xC1] or [0xF5] to [0xFF] among
    its first 1024 octets is not UTF-8: the handler prints the decoding
    error, answers with the 500 response and closes, without parsing or
    touching the filesystem. *)
Theorem stray_octet_gets_500 (h : host) (c : client) (data : bytes) :
  incoming c = inr data ->
  existsb stray (firstn 1024 data) = true ->
  run_client h c
  = (outcome (send_fault c 0),
     [Recv 1024;
      Stdout (OutClientError UnicodeDecodeError);
      SendAll response_500 (send_fault c 0);
      CloseClient]).
Proof.
  intros Hin Hs.
  rewrite (rejected_request_run h c [] UnicodeDecodeError); [reflexivity|].
  left. split; [|reflexivity].
  unfold request_text. now rewrite Hin, (stray_not_decoded _ Hs).
Qed.

Lemma stray_octet_gets_500_witness :
  existsb stray (firstn 1024 (blit "GET /" ++ [xff] ++ blit " HTTP/1.1" ++ crlf ++ crlf))
  = true
  /\ run_client empty_host (peer (blit "GET /" ++ [xff] ++ blit " HTTP/1.1" ++ crlf ++ crlf))
     = (inr tt,
        [Recv 1024;
         Stdout (OutClientError UnicodeDecodeError);
         SendAll response_500 None;
         CloseClient]).
Proof.
  split; [reflexivity|].
  apply (stray_octet_gets_500 empty_host
           (peer (blit "GET /" ++ [xff] ++ blit " HTTP/1.1" ++ crlf ++ crlf))
           (blit "GET /" ++ [xff] ++ blit " HTTP/1.1" ++ crlf ++ crlf));
    reflexivity.
Defined.
